(** * A bencode codec: shallow embedding of [dht/bencode/bencode.go]

    Go strings are byte sequences: they are modelled by [string], whose
    characters ([ascii]) are exactly the 256 byte values.  Go's [int] is
    taken to be the 64-bit signed integer of the usual targets and is
    modelled by [Z]; the places where the 64-bit range matters
    ([strconv.ParseInt]) write the bound out.  A nil slice and a nil map
    behave as the empty slice and the empty map for [len], [range],
    [append] and lookup, and are modelled by [[]] and [∅]. *)

From Stdlib Require Import ZArith Ascii String Lia.
From stdpp Require Import gmap strings list fin_maps.

#[local] Set Warnings "-register-all".
#[local] Open Scope Z_scope.
#[local] Arguments String.append !s1 s2 : simpl nomatch.

(** ** Outcomes of a Go call *)

(** [errors.New msg]. *)
Inductive error : Type := errors_New (msg : string).

Definition syntax_error : error := errors_New "syntax error".

(** A call returns a value, returns an error, panics, or (in the fuelled
    model of the parser only) is cut off before it returns. *)
Inductive res (A : Type) : Type :=
| Ok (a : A)
| Error (e : error)
| Panic (msg : string)
| Timeout.
Arguments Ok {A} a.
Arguments Error {A} e.
Arguments Panic {A} msg.
Arguments Timeout {A}.

Definition res_bind {A B} (r : res A) (k : A -> res B) : res B :=
  match r with
  | Ok a => k a
  | Error e => Error e
  | Panic msg => Panic msg
  | Timeout => Timeout
  end.

(** ** Bytes and strings *)

Definition byte_val (c : ascii) : Z := Z.of_N (N_of_ascii c).

Definition byte_eqb (c d : ascii) : bool := Ascii.eqb c d.

(** [isDigit]: [c >= '0' && c <= '9']. *)
Definition isDigit (c : ascii) : bool :=
  (byte_val "0" <=? byte_val c) && (byte_val c <=? byte_val "9").

Definition len (s : string) : Z := Z.of_nat (String.length s).

(** [s[:n]] and [s[n:]] for [0 <= n <= len(s)] (the callers guarantee the
    range). *)
Fixpoint slice_to (n : nat) (s : string) : string :=
  match n, s with
  | S n', String c s' => String c (slice_to n' s')
  | _, _ => EmptyString
  end.

Fixpoint slice_from (n : nat) (s : string) : string :=
  match n, s with
  | S n', String _ s' => slice_from n' s'
  | _, _ => s
  end.

(** The double quote character, for [Prettify]. *)
Definition dquote : string := String (ascii_of_nat 34) EmptyString.

(** ** [strconv]: decimal formatting and parsing

    These belong to Go's standard library; they are modelled from their
    documented behaviour. *)

Definition digit_char (d : Z) : ascii := ascii_of_N (Z.to_N (48 + d)).

(** Digits are produced from the least significant one, as [formatBits]
    does; [fuel] bounds the number of digits. *)
Fixpoint format_digits (fuel : nat) (n : Z) (acc : string) : string :=
  let acc' := String (digit_char (n mod 10)) acc in
  match fuel with
  | O => acc'
  | S fuel' => if n <? 10 then acc' else format_digits fuel' (n / 10) acc'
  end.

Definition FormatUint (n : Z) : string :=
  format_digits (Z.to_nat (Z.log2 n)) n EmptyString.

(** [strconv.FormatInt(n, 10)], which is what [%v] prints for an [int]. *)
Definition FormatInt (n : Z) : string :=
  if n <? 0 then String "-" (FormatUint (- n)) else FormatUint n.

Inductive NumError : Type := ErrSyntax | ErrRange.

Definition maxUint64 : Z := 2 ^ 64 - 1.
Definition maxInt64 : Z := 2 ^ 63 - 1.

(** The digit loop of [strconv.ParseUint(s, 10, 64)]. *)
Fixpoint ParseUint_loop (s : string) (n : Z) : NumError + Z :=
  match s with
  | EmptyString => inr n
  | String c s' =>
      if isDigit c then
        let n1 := n * 10 + (byte_val c - 48) in
        if maxUint64 <? n1 then inl ErrRange else ParseUint_loop s' n1
      else inl ErrSyntax
  end.

Definition ParseUint (s : string) : NumError + Z :=
  match s with
  | EmptyString => inl ErrSyntax
  | _ => ParseUint_loop s 0
  end.

(** [strconv.ParseInt(s, 10, 64)]: an optional sign, then [ParseUint],
    then the signed range check. *)
Definition ParseInt (s : string) : NumError + Z :=
  match s with
  | EmptyString => inl ErrSyntax
  | String c s' =>
      let neg := byte_eqb c "-" in
      let digits := if byte_eqb c "+" || neg then s' else s in
      match ParseUint digits with
      | inl e => inl e
      | inr un =>
          if negb neg && (maxInt64 <? un) then inl ErrRange
          else if neg && (maxInt64 + 1 <? un) then inl ErrRange
          else inr (if neg then - un else un)
      end
  end.

(** ** The tagged value *)

Definition Kind : Type := Z.

Definition Kind_String : Kind := 0.
Definition Kind_Number : Kind := 1.
Definition Kind_Array : Kind := 2.
Definition Kind_Object : Kind := 3.

(** [type Value struct]: the discriminant and one field per variant, all
    always present. *)
Inductive Value : Type :=
  mkValue (kind : Kind) (string_ : string) (number : Z)
          (array : list Value) (object : gmap string Value).

Definition Value_Kind (value : Value) : Kind :=
  match value with mkValue k _ _ _ _ => k end.
Definition Value_GetString (value : Value) : string :=
  match value with mkValue _ s _ _ _ => s end.
Definition Value_GetNumber (value : Value) : Z :=
  match value with mkValue _ _ n _ _ => n end.
Definition Value_GetArray (value : Value) : list Value :=
  match value with mkValue _ _ _ a _ => a end.
Definition Value_GetObject (value : Value) : gmap string Value :=
  match value with mkValue _ _ _ _ o => o end.

Definition NewString (in_ : string) : Value := mkValue Kind_String in_ 0 [] ∅.
Definition NewNumber (in_ : Z) : Value := mkValue Kind_Number "" in_ [] ∅.
(** [&Value{Kind: Array, Array: a}] and [&Value{Kind: Object, Object: o}]. *)
Definition ArrayValue (a : list Value) : Value := mkValue Kind_Array "" 0 a ∅.
Definition ObjectValue (o : gmap string Value) : Value := mkValue Kind_Object "" 0 [] o.

(** [fmt.Sprintf("%v:%v", len(in), in)]. *)
Definition toBencodeString (in_ : string) : string :=
  FormatInt (len in_) +:+ ":" +:+ in_.

(** A [for ... range] loop whose body may return early: the state is
    threaded through the elements in order until the body fails. *)
Fixpoint for_range {A S : Type} (body : S -> A -> res S) (l : list A) (s : S) : res S :=
  match l with
  | [] => Ok s
  | x :: l' => res_bind (body s x) (for_range body l')
  end.

(** [if len(prettify) > 0 && prettify[len(prettify)-1] == ','] then drop
    the last byte. *)
Fixpoint strip_trailing_comma (s : string) : string :=
  match s with
  | EmptyString => EmptyString
  | String c EmptyString => if byte_eqb c "," then EmptyString else s
  | String c s' => String c (strip_trailing_comma s')
  end.

(** ** The decoder *)

(** [type Context struct { b string }]: the cursor, i.e. the unconsumed
    suffix of the input. *)
Record Context : Type := mkContext { b : string }.

(** A method on [*Context] reads and updates the cursor.  Every caller
    that sees an error returns at once without reading the cursor again,
    except after [RemoveACharacter], which fails before it assigns
    [ctx.b]: so a failed call carries no cursor. *)
Definition M (A : Type) : Type := Context -> res (A * Context).

Definition ret {A} (a : A) : M A := fun ctx => Ok (a, ctx).

Definition bind {A B} (m : M A) (k : A -> M B) : M B :=
  fun ctx => res_bind (m ctx) (fun r => k (fst r) (snd r)).

Definition fail {A} (e : error) : M A := fun _ => Error e.

Definition get_b : M string := fun ctx => Ok (b ctx, ctx).

Definition set_b (s : string) : M unit := fun _ => Ok (tt, mkContext s).

(** [if err := m; err != nil { return nil, errors.New("syntax error") }]. *)
Definition or_syntax_error {A} (m : M A) : M A :=
  fun ctx => match m ctx with Error _ => Error syntax_error | r => r end.

(** [err := m] with the error inspected by the caller; the cursor is the
    one before the call when [m] fails (see [M]). *)
Definition attempt {A} (m : M A) : M (option A) :=
  fun ctx =>
    match m ctx with
    | Ok (a, ctx') => Ok (Some a, ctx')
    | Error _ => Ok (None, ctx)
    | Panic msg => Panic msg
    | Timeout => Timeout
    end.

Declare Scope go_scope.
Delimit Scope go_scope with go.
Notation "x <- m ;; k" := (bind m (fun x => k))
  (at level 100, m at next level, right associativity) : go_scope.
Notation "m ;; k" := (bind m (fun _ => k))
  (at level 100, right associativity) : go_scope.
#[local] Open Scope go_scope.

Definition RemoveACharacter (c : ascii) : M unit :=
  fun ctx =>
    match b ctx with
    | EmptyString => Error syntax_error
    | String c0 rest =>
        if byte_eqb c0 c then Ok (tt, mkContext rest) else Error syntax_error
    end.

Definition PeekACharacter : M ascii :=
  fun ctx =>
    match b ctx with
    | EmptyString => Error syntax_error
    | String c0 _ => Ok (c0, ctx)
    end.

(** [p := 0; for p < len(ctx.b) && isDigit(ctx.b[p]) { p++ }]. *)
Fixpoint scan_digits (s : string) : nat :=
  match s with
  | String c s' => if isDigit c then S (scan_digits s') else O
  | EmptyString => O
  end.

Definition GetString : M string :=
  s <- get_b ;;
  let p := scan_digits s in
  match ParseInt (slice_to p s) with
  | inl _ => fail syntax_error
  | inr Len =>
      set_b (slice_from p s) ;;
      or_syntax_error (RemoveACharacter ":") ;;
      s <- get_b ;;
      if len s <? Len then fail syntax_error
      else
        let str := slice_to (Z.to_nat Len) s in
        set_b (slice_from (Z.to_nat Len) s) ;;
        ret str
  end.

Definition ParseString : M Value :=
  string_ <- GetString ;;
  ret (mkValue Kind_String string_ 0 [] ∅).

Definition ParseNumber : M Value :=
  or_syntax_error (RemoveACharacter "i") ;;
  s <- get_b ;;
  let p := scan_digits s in
  match ParseInt (slice_to p s) with
  | inl _ => fail syntax_error
  | inr number =>
      set_b (slice_from p s) ;;
      or_syntax_error (RemoveACharacter "e") ;;
      ret (mkValue Kind_Number "" number [] ∅)
  end.

(** The [for { ... }] loop of [ParseArray]: [n] bounds the number of
    iterations, [value] is the array built so far. *)
Fixpoint ParseArray_loop (ParseValue : M Value) (n : nat) (value : list Value) : M Value :=
  match n with
  | O => fun _ => Timeout
  | S n' =>
      ele <- ParseValue ;;
      let value := value ++ [ele] in
      r <- attempt (RemoveACharacter "e") ;;
      match r with
      | Some _ => ret (mkValue Kind_Array "" 0 value ∅)
      | None => ParseArray_loop ParseValue n' value
      end
  end.

Definition ParseArray (ParseValue : M Value) (n : nat) : M Value :=
  or_syntax_error (RemoveACharacter "l") ;;
  ParseArray_loop ParseValue n [].

(** The loop of [ParseObject]; [value] is the map built so far (made on
    first use in the source; a nil map is the empty map here). *)
Fixpoint ParseObject_loop (ParseValue : M Value) (n : nat) (value : gmap string Value) : M Value :=
  match n with
  | O => fun _ => Timeout
  | S n' =>
      key <- GetString ;;
      attribute <- ParseValue ;;
      let value := <[key := attribute]> value in
      r <- attempt (RemoveACharacter "e") ;;
      match r with
      | Some _ => ret (mkValue Kind_Object "" 0 [] value)
      | None => ParseObject_loop ParseValue n' value
      end
  end.

Definition ParseObject (ParseValue : M Value) (n : nat) : M Value :=
  or_syntax_error (RemoveACharacter "d") ;;
  ParseObject_loop ParseValue n ∅.

(** [errors.New(fmt.Sprintf("error character: %v", c))]: [%v] prints a
    byte as its decimal value. *)
Definition error_character (c : ascii) : error :=
  errors_New ("error character: " +:+ FormatInt (byte_val c)).

(** [ParseValue], with [fuel] bounding the nesting of calls and the
    iterations of each loop. *)
Fixpoint ParseValue (fuel : nat) : M Value :=
  match fuel with
  | O => fun _ => Timeout
  | S fuel' =>
      c <- PeekACharacter ;;
      if isDigit c then ParseString
      else if byte_eqb c "i" then ParseNumber
      else if byte_eqb c "l" then ParseArray (ParseValue fuel') fuel'
      else if byte_eqb c "d" then ParseObject (ParseValue fuel') fuel'
      else fail (error_character c)
  end.

(** [Decode]: one byte of fuel per input byte, plus one, is always enough
    (see [ParseValue_fuel_enough]). *)
Definition Decode (b : string) : res Value :=
  res_bind (ParseValue (S (String.length b)) (mkContext b)) (fun r => Ok (fst r)).

(** The text [c] parses as [v], whatever follows it. *)
Definition parses_as (fuel : nat) (c : string) (v : Value) : Prop :=
  forall t, ParseValue fuel (mkContext (c +:+ t)) = Ok (v, mkContext t).

(** ** The construction helpers *)

(** A value of type [interface{}]: its dynamic type is [int], [string],
    [[]interface{}], [map[string]interface{}], or anything else (another
    type, or nil). *)
Inductive Host : Type :=
| HInt (n : Z)
| HString (s : string)
| HSlice (l : list Host)
| HMap (m : gmap string Host)
| HOther.

Definition only_support : error :=
  errors_New "only support int, string, slice and map".

(** ** The encoder, the pretty-printer and the helpers

    [Encode], [Prettify] and [NewObject] range over a map. *)

Section Codec.

(** Go leaves the order of a [range] over a map unspecified: it is a
    parameter here, constrained only to visit every entry once. *)
Variable range_order : forall A : Type, list (string * A) -> list (string * A).

Definition range_map {A} (m : gmap string A) : list (string * A) :=
  range_order A (map_to_list m).

(** [Value.Encode].  The recursive calls of the [Object] loop are pure, so
    they are made on the stored map before the entries are visited in
    iteration order. *)
Fixpoint Encode (value : Value) : res string :=
  match value with
  | mkValue kind string_ number array object =>
      if kind =? Kind_String then Ok (toBencodeString string_)
      else if kind =? Kind_Number then Ok ("i" +:+ FormatInt number +:+ "e")
      else if kind =? Kind_Array then
        res_bind
          (for_range (fun prettify ai =>
                        res_bind (Encode ai) (fun s => Ok (prettify +:+ s)))
                     array "l"%string)
          (fun prettify => Ok (prettify +:+ "e"))
      else if kind =? Kind_Object then
        res_bind
          (for_range (fun prettify kv =>
                        res_bind (snd kv) (fun s =>
                          Ok (prettify +:+ toBencodeString (fst kv) +:+ s)))
                     (range_map (Encode <$> object)) "d"%string)
          (fun prettify => Ok (prettify +:+ "e"))
      else Panic "impossible"
  end.

(** [Value.Prettify]. *)
Fixpoint Prettify (value : Value) : res string :=
  match value with
  | mkValue kind string_ number array object =>
      if kind =? Kind_String then Ok (dquote +:+ string_ +:+ dquote)
      else if kind =? Kind_Number then Ok (FormatInt number)
      else if kind =? Kind_Array then
        res_bind
          (for_range (fun prettify ai =>
                        res_bind (Prettify ai) (fun s => Ok (prettify +:+ s +:+ ",")))
                     array "["%string)
          (fun prettify => Ok (strip_trailing_comma prettify +:+ "]"))
      else if kind =? Kind_Object then
        res_bind
          (for_range (fun prettify kv =>
                        res_bind (snd kv) (fun s =>
                          Ok (prettify +:+ dquote +:+ fst kv +:+ dquote +:+ ": " +:+ s +:+ ",")))
                     (range_map (Prettify <$> object)) "{"%string)
          (fun prettify => Ok (strip_trailing_comma prettify +:+ "}"))
      else Panic "impossible"
  end.

(** [NewArray] and [NewObject].  The type assertion on [in] panics when
    the argument is of another type.  In [NewObject] the conversions of
    the entries are pure and are made on the stored map before the
    entries are visited in iteration order. *)
Fixpoint NewArray (in_ : Host) : res Value :=
  match in_ with
  | HSlice l =>
      res_bind
        (for_range (fun newValue v =>
           match v with
           | HInt n => Ok (newValue ++ [NewNumber n])
           | HString s => Ok (newValue ++ [NewString s])
           | HSlice _ => res_bind (NewArray v) (fun newArray => Ok (newValue ++ [newArray]))
           | HMap _ => res_bind (NewObject v) (fun newObject => Ok (newValue ++ [newObject]))
           | HOther => Error only_support
           end) l [])
        (fun newValue => Ok (mkValue Kind_Array "" 0 newValue ∅))
  | _ => Panic "interface conversion"
  end
with NewObject (in_ : Host) : res Value :=
  match in_ with
  | HMap m =>
      res_bind
        (for_range (fun newValue kv => res_bind (snd kv) (fun x => Ok (<[fst kv := x]> newValue)))
           (range_order _ (map_to_list
              ((fun v =>
                  match v with
                  | HInt n => Ok (NewNumber n)
                  | HString s => Ok (NewString s)
                  | HSlice _ => NewArray v
                  | HMap _ => NewObject v
                  | HOther => Error only_support
                  end) <$> m)))
           ∅)
        (fun newValue => Ok (mkValue Kind_Object "" 0 [] newValue))
  | _ => Panic "interface conversion"
  end.

(** The [switch v.(type)] of both helpers, as the value it contributes. *)
Definition convert (v : Host) : res Value :=
  match v with
  | HInt n => Ok (NewNumber n)
  | HString s => Ok (NewString s)
  | HSlice _ => NewArray v
  | HMap _ => NewObject v
  | HOther => Error only_support
  end.

(** [Decode(Encode(v))]. *)
Definition decode_encode (v : Value) : res Value :=
  res_bind (Encode v) Decode.

(** [Encode] writes [c] for [v], and [c] parses as [v]. *)
Definition written_and_read (v : Value) : Prop :=
  exists c fuel, Encode v = Ok c /\ parses_as fuel c v.

End Codec.

(** * Vocabulary of the properties *)

(** Every byte of [s] is a decimal digit. *)
Fixpoint all_digits (s : string) : bool :=
  match s with
  | EmptyString => true
  | String c s' => isDigit c && all_digits s'
  end.

(** The number a digit string denotes, read from the left with [k] as the
    value of what was read before. *)
Fixpoint digits_val (k : Z) (s : string) : Z :=
  match s with
  | EmptyString => k
  | String c s' => digits_val (k * 10 + (byte_val c - 48)) s'
  end.

(** The digit scan stops in front of [t]. *)
Definition starts_nondigit (t : string) : Prop :=
  match t with
  | EmptyString => True
  | String c _ => isDigit c = false
  end.

(** [c] is not empty and its first byte is not ['e']. *)
Definition starts_not_e (c : string) : Prop :=
  match c with
  | EmptyString => False
  | String x _ => byte_eqb x "e" = false
  end.

(** A success of [m] splits the cursor into the text [c] it consumed and
    the rest, and [m] gives the same result on [c] followed by anything. *)
Definition local {A} (m : M A) : Prop :=
  forall s a ctx',
    m (mkContext s) = Ok (a, ctx') ->
    exists c, s = c +:+ b ctx' /\ starts_not_e c /\
              forall t, m (mkContext (c +:+ t)) = Ok (a, mkContext t).

(** The dispatch of [ParseValue] on the first byte of the cursor. *)
Definition dispatch (fuel : nat) (c : ascii) : M Value :=
  if isDigit c then ParseString
  else if byte_eqb c "i" then ParseNumber
  else if byte_eqb c "l" then ParseArray (ParseValue fuel) fuel
  else if byte_eqb c "d" then ParseObject (ParseValue fuel) fuel
  else fail (error_character c).

(** The call returned, with a value or with an error: it neither panicked
    nor was cut off. *)
Definition returns {A} (r : res A) : Prop :=
  match r with
  | Ok _ | Error _ => True
  | Panic _ | Timeout => False
  end.

(** [m'] agrees with [m] wherever [m] returns. *)
Definition refines {A} (m m' : M A) : Prop :=
  forall ctx, returns (m ctx) -> m' ctx = m ctx.

(** The scalar values of the round-trip properties: byte strings (a Go
    string is never longer than [maxInt64]) and non-negative integers. *)
Inductive scalar : Value -> Prop :=
| scalar_string (s : string) : len s <= maxInt64 -> scalar (NewString s)
| scalar_number (n : Z) : 0 <= n <= maxInt64 -> scalar (NewNumber n).

(** The texts of [l], one after the other. *)
Fixpoint string_concat (l : list string) : string :=
  match l with
  | [] => ""
  | c :: l' => c +:+ string_concat l'
  end.

(** The production fails with nothing but [syntax_error]. *)
Definition only_syntax_errors {A} (m : M A) : Prop :=
  forall ctx, (exists r, m ctx = Ok r) \/ m ctx = Error syntax_error.

(** [m'] fails with [syntax_error] on every proper prefix of a text that
    [m] consumes whole. *)
Definition truncates {A} (m m' : M A) : Prop :=
  forall c a, (forall t, m (mkContext (c +:+ t)) = Ok (a, mkContext t)) ->
  forall p q, c = p +:+ q -> q <> "" -> m' (mkContext p) = Error syntax_error.

(** One [<key><value>] pair of a dictionary text: the key, the text of
    the value and the value that text parses as. *)
Record entry : Type := mkEntry { e_key : string; e_text : string; e_value : Value }.

(** The entries as they stand between ['d'] and ['e']. *)
Definition dict_text (entries : list entry) : string :=
  string_concat (map (fun e => toBencodeString (e_key e) +:+ e_text e) entries).

(** [value.Object[key] = attribute] for each entry in turn. *)
Definition insert_all (value : gmap string Value) (entries : list entry) : gmap string Value :=
  fold_left (fun m e => <[e_key e := e_value e]> m) entries value.

(** Sizes, for induction through the nested lists and maps. *)
Fixpoint Value_size (v : Value) : nat :=
  match v with
  | mkValue _ _ _ a o =>
      S (fold_right (fun x acc => Value_size x + acc)%nat O a
         + map_fold (fun _ x acc => Value_size x + acc)%nat O o)
  end.

Fixpoint Host_size (h : Host) : nat :=
  match h with
  | HSlice l => S (fold_right (fun x acc => Host_size x + acc)%nat O l)
  | HMap m => S (map_fold (fun _ x acc => Host_size x + acc)%nat O m)
  | _ => 1%nat
  end.

(** The discriminant is one of the four variants, in the value and in
    every element nested in it. *)
Inductive WellKinded : Value -> Prop :=
| WellKinded_intro (kind : Kind) (string_ : string) (number : Z)
                   (array : list Value) (object : gmap string Value) :
    kind = Kind_String \/ kind = Kind_Number \/ kind = Kind_Array \/ kind = Kind_Object ->
    Forall WellKinded array ->
    map_Forall (fun _ => WellKinded) object ->
    WellKinded (mkValue kind string_ number array object).



(** One admissible iteration order: the order of [map_to_list]. *)
Definition stored_order (A : Type) (l : list (string * A)) : list (string * A) := l.

(** The text [p] is exactly one value [v]: the parser accepts it and
    consumes all of it. *)
Definition complete_value (p : string) (v : Value) : Prop :=
  ParseValue (S (String.length p)) (mkContext p) = Ok (v, mkContext "").

(** The entry that [Encode] writes for a visited pair of the map. *)
Definition entry_of (object : gmap string Value) (fuel : nat)
           (kv : string * res string) (e : entry) : Prop :=
  e_key e = fst kv /\ snd kv = Ok (e_text e) /\ object !! e_key e = Some (e_value e) /\
  len (e_key e) <= maxInt64 /\ parses_as fuel (e_text e) (e_value e).

(** The values of the qualified round-trip property: byte strings,
    non-negative integers, and non-empty lists and dictionaries of such
    values, with the fields of the other variants left at their zero
    values (as [Decode] and the helpers leave them). *)
Inductive plain : Value -> Prop :=
| plain_string (s : string) : len s <= maxInt64 -> plain (NewString s)
| plain_number (n : Z) : 0 <= n <= maxInt64 -> plain (NewNumber n)
| plain_array (a : list Value) :
    a <> [] -> Forall plain a -> plain (ArrayValue a)
| plain_object (o : gmap string Value) :
    o <> ∅ -> map_Forall (fun key v => len key <= maxInt64 /\ plain v) o ->
    plain (ObjectValue o).

(** The variant that [ParseValue] selects on the first byte [c] of the
    cursor, when [c] is a digit, ['i'], ['l'] or ['d']. *)
Definition kind_of_first_byte (c : ascii) : Kind :=
  if isDigit c then Kind_String
  else if byte_eqb c "i" then Kind_Number
  else if byte_eqb c "l" then Kind_Array
  else Kind_Object.

(** The first byte starts one of the four productions. *)
Definition dispatch_byte (c : ascii) : bool :=
  isDigit c || byte_eqb c "i" || byte_eqb c "l" || byte_eqb c "d".

(** The errors of the decoder: [syntax_error], or [error_character] for a
    byte that starts no production. *)
Definition decode_error (e : error) : Prop :=
  e = syntax_error \/ exists c, e = error_character c /\ dispatch_byte c = false.

(** The literal holds only ints, strings, sequences and string-keyed
    mappings, at every depth. *)
Inductive supported : Host -> Prop :=
| supported_int (n : Z) : supported (HInt n)
| supported_string (s : string) : supported (HString s)
| supported_slice (l : list Host) : Forall supported l -> supported (HSlice l)
| supported_map (m : gmap string Host) :
    map_Forall (fun _ => supported) m -> supported (HMap m).

(** The value with the shape of a supported literal: an int as a number,
    a string as a byte string, a sequence as the array of its elements in
    order, a mapping as the object with the same keys.  (An unsupported
    value has no counterpart; the empty byte string stands in its place.) *)
Fixpoint to_value (h : Host) : Value :=
  match h with
  | HInt n => NewNumber n
  | HString s => NewString s
  | HSlice l => ArrayValue (map to_value l)
  | HMap m => ObjectValue (to_value <$> m)
  | HOther => NewString ""
  end.

(** The strings of [l] with a comma between neighbours. *)
Fixpoint join_comma (l : list string) : string :=
  match l with
  | [] => ""
  | [p] => p
  | p :: l' => p +:+ "," +:+ join_comma l'
  end.

(** What [Prettify] writes for one entry of an object, before the comma. *)
Definition pretty_entry (key p : string) : string :=
  dquote +:+ key +:+ dquote +:+ ": " +:+ p.

(** ** The grammar

    The texts of the wire format, each with the value it stands for:
    [<digits>:<bytes>], [i<digits>e], [l<value>...e] and
    [d(<key><value>)...e], where a digit run denotes a number up to
    [maxInt64] and a list or dictionary has at least one element. *)

(** [ds] is a non-empty run of digits that denotes [n <= maxInt64]. *)
Definition digit_run (ds : string) (n : Z) : Prop :=
  ds <> "" /\ all_digits ds = true /\ digits_val 0 ds = n /\ n <= maxInt64.

(** [bencoded c v]: the text [c] is a value of the grammar and stands for
    [v].  [bencoded_elements cs before after]: [cs] is a sequence of
    values that extends the list [before] to [after];
    [bencoded_entries cs before after]: [cs] is a sequence of key-value
    pairs that, inserted in order, extend the map [before] to [after]. *)
Inductive bencoded : string -> Value -> Prop :=
| bencoded_bytes (ds str : string) :
    digit_run ds (len str) -> bencoded (ds +:+ ":" +:+ str) (NewString str)
| bencoded_integer (ds : string) (n : Z) :
    digit_run ds n -> bencoded ("i" +:+ ds +:+ "e") (NewNumber n)
| bencoded_list (cs : string) (a : list Value) :
    bencoded_elements cs [] a -> a <> [] ->
    bencoded ("l" +:+ cs +:+ "e") (ArrayValue a)
| bencoded_dictionary (cs : string) (o : gmap string Value) :
    bencoded_entries cs ∅ o -> o <> ∅ ->
    bencoded ("d" +:+ cs +:+ "e") (ObjectValue o)
with bencoded_elements : string -> list Value -> list Value -> Prop :=
| bencoded_elements_nil (a : list Value) : bencoded_elements "" a a
| bencoded_elements_cons (c cs : string) (v : Value) (before after : list Value) :
    bencoded c v -> bencoded_elements cs (before ++ [v]) after ->
    bencoded_elements (c +:+ cs) before after
with bencoded_entries : string -> gmap string Value -> gmap string Value -> Prop :=
| bencoded_entries_nil (o : gmap string Value) : bencoded_entries "" o o
| bencoded_entries_cons (ds key c cs : string) (v : Value)
                        (before after : gmap string Value) :
    digit_run ds (len key) -> bencoded c v ->
    bencoded_entries cs (<[key := v]> before) after ->
    bencoded_entries (ds +:+ ":" +:+ key +:+ c +:+ cs) before after.

Scheme bencoded_min := Minimality for bencoded Sort Prop
  with bencoded_elements_min := Minimality for bencoded_elements Sort Prop
  with bencoded_entries_min := Minimality for bencoded_entries Sort Prop.

Combined Scheme bencoded_mutind
  from bencoded_min, bencoded_elements_min, bencoded_entries_min.

(** * Properties *)

Example Decode_spam : Decode "4:spam" = Ok (NewString "spam").
Proof. vm_compute. reflexivity. Qed.

(** ** Strings and slices *)

Lemma string_app_assoc (s1 s2 s3 : string) : (s1 +:+ s2) +:+ s3 = s1 +:+ (s2 +:+ s3).
Proof. induction s1 as [|c s1 IH]; simpl; [reflexivity | now rewrite IH]. Qed.

Lemma string_app_nil_r (s : string) : s +:+ "" = s.
Proof. induction s as [|c s IH]; simpl; [reflexivity | now rewrite IH]. Qed.

Lemma string_length_app (s1 s2 : string) :
  String.length (s1 +:+ s2) = (String.length s1 + String.length s2)%nat.
Proof. induction s1 as [|c s1 IH]; simpl; [reflexivity | now rewrite IH]. Qed.

Lemma string_app_eq_nil (s1 s2 : string) : s1 +:+ s2 = "" -> s1 = "" /\ s2 = "".
Proof. destruct s1; simpl; [tauto | discriminate]. Qed.

Lemma slice_to_app (s t : string) : slice_to (String.length s) (s +:+ t) = s.
Proof. induction s as [|c s IH]; simpl; [now destruct t | now rewrite IH]. Qed.

Lemma slice_from_app (s t : string) : slice_from (String.length s) (s +:+ t) = t.
Proof. induction s as [|c s IH]; simpl; [now destruct t | exact IH]. Qed.

Lemma slice_to_from (n : nat) (s : string) : slice_to n s +:+ slice_from n s = s.
Proof.
  revert s; induction n as [|n IH]; intros [|c s]; simpl; try reflexivity.
  now rewrite IH.
Qed.

Lemma slice_to_length (n : nat) (s : string) :
  (n <= String.length s)%nat -> String.length (slice_to n s) = n.
Proof.
  revert s; induction n as [|n IH]; intros [|c s]; simpl; intros H; try lia.
  rewrite IH; lia.
Qed.

Lemma len_nonneg (s : string) : 0 <= len s.
Proof. unfold len; lia. Qed.

Lemma byte_eqb_eq (c d : ascii) : byte_eqb c d = true <-> c = d.
Proof. apply Ascii.eqb_eq. Qed.

Lemma byte_eqb_refl (c : ascii) : byte_eqb c c = true.
Proof. apply Ascii.eqb_refl. Qed.

(** ** Decimal digits *)

Lemma isDigit_range (c : ascii) : isDigit c = true <-> 48 <= byte_val c <= 57.
Proof.
  unfold isDigit. change (byte_val "0") with 48. change (byte_val "9") with 57.
  rewrite andb_true_iff, !Z.leb_le. tauto.
Qed.

Lemma digit_char_val (d : Z) : 0 <= d < 10 -> byte_val (digit_char d) = 48 + d.
Proof.
  intros Hd. unfold byte_val, digit_char.
  rewrite N_ascii_embedding; lia.
Qed.

Lemma isDigit_digit_char (d : Z) : 0 <= d < 10 -> isDigit (digit_char d) = true.
Proof. intros Hd. apply isDigit_range. rewrite digit_char_val; lia. Qed.

Lemma all_digits_app (s t : string) :
  all_digits (s +:+ t) = all_digits s && all_digits t.
Proof.
  induction s as [|c s IH]; simpl; [reflexivity|].
  now rewrite IH, andb_assoc.
Qed.

Lemma digits_val_app (k : Z) (s t : string) :
  digits_val k (s +:+ t) = digits_val (digits_val k s) t.
Proof. revert k; induction s as [|c s IH]; intros k; simpl; [reflexivity | apply IH]. Qed.

Lemma digits_val_ge (k : Z) (s : string) :
  0 <= k -> all_digits s = true -> k <= digits_val k s.
Proof.
  revert k; induction s as [|c s IH]; intros k Hk Hs; simpl in *; [lia|].
  apply andb_true_iff in Hs as [Hc Hs]. apply isDigit_range in Hc.
  specialize (IH (k * 10 + (byte_val c - 48)) ltac:(lia) Hs). lia.
Qed.

(** What [format_digits] prepends is a non-empty digit string denoting [n]. *)
Lemma format_digits_spec (fuel : nat) (n : Z) (acc : string) :
  0 <= n -> Z.log2 n <= Z.of_nat fuel ->
  exists ds, format_digits fuel n acc = ds +:+ acc /\ ds <> "" /\
             all_digits ds = true /\ digits_val 0 ds = n.
Proof.
  revert n acc; induction fuel as [|fuel IH]; intros n acc Hn Hlog.
  - assert (n < 2) as Hn2.
    { destruct (Z.lt_ge_cases n 2) as [|Hge]; [assumption|].
      pose proof (Z.log2_le_mono 2 n Hge) as Hm. change (Z.log2 2) with 1 in Hm. lia. }
    exists (String (digit_char (n mod 10)) ""). simpl.
    rewrite Z.mod_small by lia.
    rewrite isDigit_digit_char, digit_char_val by lia.
    repeat split; [discriminate | lia].
  - simpl. destruct (n <? 10) eqn:Hlt.
    + apply Z.ltb_lt in Hlt.
      exists (String (digit_char (n mod 10)) ""). simpl.
      rewrite Z.mod_small by lia.
      rewrite isDigit_digit_char, digit_char_val by lia.
      repeat split; [discriminate | lia].
    + apply Z.ltb_ge in Hlt.
      assert (0 <= n mod 10 < 10) as Hmod by (apply Z.mod_pos_bound; lia).
      assert (0 <= n / 10) as Hdiv by (apply Z.div_pos; lia).
      assert (Z.log2 (n / 10) <= Z.of_nat fuel) as Hlog'.
      { assert (0 < n / 10) as Hpos by (apply Z.div_str_pos; lia).
        assert (n < 2 ^ (Z.of_nat (S fuel) + 1)) as Hb by (apply Z.log2_lt_pow2; lia).
        assert (n / 10 < 2 ^ (Z.of_nat fuel + 1)) as Hb'.
        { apply Z.div_lt_upper_bound; [lia|].
          replace (Z.of_nat (S fuel) + 1) with (1 + (Z.of_nat fuel + 1)) in Hb by lia.
          rewrite Z.pow_add_r in Hb by lia. change (2 ^ 1) with 2 in Hb.
          assert (0 < 2 ^ (Z.of_nat fuel + 1)) by (apply Z.pow_pos_nonneg; lia). lia. }
        apply Z.log2_lt_pow2 in Hb'; lia. }
      destruct (IH (n / 10) (String (digit_char (n mod 10)) acc) Hdiv Hlog')
        as (ds & Heq & Hne & Hall & Hval).
      exists (ds +:+ String (digit_char (n mod 10)) ""). repeat split.
      * rewrite Heq, string_app_assoc. reflexivity.
      * intros H. apply string_app_eq_nil in H as [_ H]. discriminate.
      * rewrite all_digits_app, Hall. simpl. now rewrite isDigit_digit_char.
      * rewrite digits_val_app, Hval. simpl. rewrite digit_char_val by lia.
        pose proof (Z.div_mod n 10). lia.
Qed.

Lemma FormatInt_digits (n : Z) :
  0 <= n ->
  FormatInt n <> "" /\ all_digits (FormatInt n) = true /\ digits_val 0 (FormatInt n) = n.
Proof.
  intros Hn. unfold FormatInt.
  destruct (n <? 0) eqn:Hneg; [apply Z.ltb_lt in Hneg; lia|].
  unfold FormatUint.
  destruct (format_digits_spec (Z.to_nat (Z.log2 n)) n "" Hn) as (ds & Heq & Hne & Hall & Hval).
  { pose proof (Z.log2_nonneg n). lia. }
  rewrite Heq, string_app_nil_r. auto.
Qed.

Lemma ParseUint_loop_digits (s : string) (k : Z) :
  all_digits s = true -> 0 <= k -> digits_val k s <= maxUint64 ->
  ParseUint_loop s k = inr (digits_val k s).
Proof.
  revert k; induction s as [|c s IH]; intros k Hs Hk Hmax; simpl in *; [reflexivity|].
  apply andb_true_iff in Hs as [Hc Hs]. rewrite Hc.
  pose proof (proj1 (isDigit_range c) Hc) as Hr.
  pose proof (digits_val_ge (k * 10 + (byte_val c - 48)) s ltac:(lia) Hs) as Hge.
  destruct (maxUint64 <? k * 10 + (byte_val c - 48)) eqn:Hov.
  - apply Z.ltb_lt in Hov. lia.
  - apply IH; [assumption | lia | assumption].
Qed.

(** A successful [ParseUint_loop] has read digits only, within range. *)
Lemma ParseUint_loop_inv (s : string) (k n : Z) :
  0 <= k -> ParseUint_loop s k = inr n ->
  all_digits s = true /\ n = digits_val k s /\ (s <> "" -> n <= maxUint64).
Proof.
  revert k; induction s as [|c s IH]; intros k Hk H; simpl in *.
  - injection H as <-. repeat split; congruence.
  - destruct (isDigit c) eqn:Hc; [|discriminate].
    pose proof (proj1 (isDigit_range c) Hc) as Hr.
    destruct (maxUint64 <? k * 10 + (byte_val c - 48)) eqn:Hov; [discriminate|].
    apply Z.ltb_ge in Hov.
    destruct (IH (k * 10 + (byte_val c - 48)) ltac:(lia) H) as (Ha & Hn & Hb).
    repeat split; [assumption | assumption |].
    intros _. destruct s as [|c' s]; [simpl in Hn; lia | apply Hb; discriminate].
Qed.

Lemma all_digits_head (c : ascii) (s : string) :
  all_digits (String c s) = true -> byte_eqb c "+" = false /\ byte_eqb c "-" = false.
Proof.
  simpl. intros H. apply andb_true_iff in H as [Hc _]. apply isDigit_range in Hc.
  split; apply not_true_is_false; intros He; apply byte_eqb_eq in He; subst c;
    vm_compute in Hc; destruct Hc as [H1 H2]; first [now apply H1 | now apply H2].
Qed.

Lemma ParseInt_digits (s : string) :
  all_digits s = true -> s <> "" -> digits_val 0 s <= maxInt64 ->
  ParseInt s = inr (digits_val 0 s).
Proof.
  intros Hs Hne Hmax. destruct s as [|c s]; [congruence|].
  unfold ParseInt. destruct (all_digits_head c s Hs) as [-> ->]. cbn [orb].
  unfold ParseUint.
  rewrite ParseUint_loop_digits; [| assumption | lia | unfold maxUint64, maxInt64 in *; lia].
  cbn [negb andb].
  destruct (maxInt64 <? digits_val 0 (String c s)) eqn:Hov; [apply Z.ltb_lt in Hov; lia|].
  reflexivity.
Qed.

(** On a digit run, [ParseInt] succeeds only with the value the run
    denotes, which is then a non-negative 64-bit integer. *)
Lemma ParseInt_digits_inv (s : string) (n : Z) :
  all_digits s = true -> ParseInt s = inr n ->
  s <> "" /\ n = digits_val 0 s /\ 0 <= n <= maxInt64.
Proof.
  intros Hs H. destruct s as [|c s]; [discriminate|].
  unfold ParseInt in H. destruct (all_digits_head c s Hs) as [Hp Hm].
  rewrite Hp, Hm in H. cbn [orb negb andb] in H.
  unfold ParseUint in H.
  destruct (ParseUint_loop (String c s) 0) as [e|un] eqn:Hun; [discriminate|].
  destruct (maxInt64 <? un) eqn:Hov; [discriminate|]. apply Z.ltb_ge in Hov.
  injection H as <-.
  destruct (ParseUint_loop_inv _ 0 un (Z.le_refl 0) Hun) as (_ & Hn & _).
  pose proof (digits_val_ge 0 (String c s) ltac:(lia) Hs).
  repeat split; first [discriminate | assumption | lia].
Qed.

Lemma ParseInt_FormatInt (n : Z) : 0 <= n <= maxInt64 -> ParseInt (FormatInt n) = inr n.
Proof.
  intros Hn. destruct (FormatInt_digits n) as (Hne & Hall & Hval); [lia|].
  rewrite ParseInt_digits; [now rewrite Hval | assumption | assumption | lia].
Qed.

(** ** The digit scan *)

Lemma scan_digits_app (ds t : string) :
  all_digits ds = true -> starts_nondigit t ->
  scan_digits (ds +:+ t) = String.length ds.
Proof.
  intros Hds Ht. induction ds as [|c ds IH]; simpl in *.
  - destruct t as [|c t]; simpl in *; [reflexivity | now rewrite Ht].
  - apply andb_true_iff in Hds as [-> Hds]. now rewrite IH.
Qed.

Lemma scan_digits_spec (s : string) :
  all_digits (slice_to (scan_digits s) s) = true /\
  starts_nondigit (slice_from (scan_digits s) s).
Proof.
  induction s as [|c s [IH1 IH2]]; simpl; [auto|].
  destruct (isDigit c) eqn:Hc; simpl; [rewrite Hc; auto | auto].
Qed.

Lemma scan_digits_le (s : string) : (scan_digits s <= String.length s)%nat.
Proof. induction s as [|c s IH]; simpl; [lia | destruct (isDigit c); simpl; lia]. Qed.

(** ** The scalar productions *)

Ltac unfold_M :=
  unfold bind, ret, fail, get_b, set_b, or_syntax_error, attempt, res_bind,
    RemoveACharacter, PeekACharacter; cbn [b fst snd].

Lemma Z_to_nat_len (s : string) : Z.to_nat (len s) = String.length s.
Proof. unfold len. apply Nat2Z.id. Qed.

(** [GetString] on [<digits>:<bytes>] followed by anything. *)
Lemma GetString_intro (ds str t : string) :
  all_digits ds = true -> ParseInt ds = inr (len str) ->
  GetString (mkContext (ds +:+ ":" +:+ str +:+ t)) = Ok (str, mkContext t).
Proof.
  intros Hds Hlen. unfold GetString. unfold_M.
  rewrite scan_digits_app by (assumption || reflexivity).
  rewrite slice_to_app, slice_from_app, Hlen. unfold_M.
  cbn [String.append byte_eqb Ascii.eqb Bool.eqb]. cbn [b fst snd].
  destruct (len (str +:+ t) <? len str) eqn:Hlt.
  - apply Z.ltb_lt in Hlt. unfold len in Hlt. rewrite string_length_app in Hlt. lia.
  - rewrite Z_to_nat_len, slice_to_app, slice_from_app. reflexivity.
Qed.

(** Every success of [GetString] is of that form. *)
Lemma GetString_inv (s str : string) (ctx' : Context) :
  GetString (mkContext s) = Ok (str, ctx') ->
  exists ds, s = ds +:+ ":" +:+ str +:+ b ctx' /\
             all_digits ds = true /\ ParseInt ds = inr (len str).
Proof.
  unfold GetString. unfold_M. intros H.
  destruct (scan_digits_spec s) as [Hds _].
  pose proof (slice_to_from (scan_digits s) s) as Hsplit.
  destruct (ParseInt (slice_to (scan_digits s) s)) as [e|Len] eqn:HLen; [discriminate|].
  destruct (ParseInt_digits_inv _ _ Hds HLen) as (_ & _ & HLen0 & _).
  revert H. unfold_M.
  destruct (slice_from (scan_digits s) s) as [|c rest] eqn:Hrest; [discriminate|].
  destruct (byte_eqb c ":") eqn:Hc; [|discriminate].
  apply byte_eqb_eq in Hc; subst c. cbn [b fst snd].
  destruct (len rest <? Len) eqn:Hlt; [discriminate|]. apply Z.ltb_ge in Hlt.
  intros H. injection H as <- <-. cbn [b].
  assert (Z.to_nat Len <= String.length rest)%nat as Hle by (unfold len in Hlt; lia).
  exists (slice_to (scan_digits s) s). repeat split.
  - rewrite <- Hsplit at 1. f_equal. cbn [String.append]. f_equal.
    symmetry. apply slice_to_from.
  - assumption.
  - rewrite HLen. f_equal. unfold len. rewrite slice_to_length by assumption. lia.
Qed.

(** [ParseNumber] on [i<digits>e] followed by anything. *)
Lemma ParseNumber_intro (ds t : string) (n : Z) :
  all_digits ds = true -> ParseInt ds = inr n ->
  ParseNumber (mkContext ("i" +:+ ds +:+ "e" +:+ t)) = Ok (NewNumber n, mkContext t).
Proof.
  intros Hds Hn. unfold ParseNumber. unfold_M.
  cbn [String.append byte_eqb Ascii.eqb Bool.eqb]. cbn [b fst snd].
  rewrite scan_digits_app by (assumption || reflexivity).
  rewrite slice_to_app, slice_from_app, Hn. unfold_M.
  reflexivity.
Qed.

Lemma ParseNumber_inv (s : string) (v : Value) (ctx' : Context) :
  ParseNumber (mkContext s) = Ok (v, ctx') ->
  exists ds n, s = "i" +:+ ds +:+ "e" +:+ b ctx' /\ v = NewNumber n /\
               all_digits ds = true /\ ParseInt ds = inr n.
Proof.
  unfold ParseNumber. unfold_M. intros H.
  destruct s as [|c s]; [discriminate|].
  destruct (byte_eqb c "i") eqn:Hc; [|discriminate].
  apply byte_eqb_eq in Hc; subst c. cbn [b fst snd] in H.
  destruct (scan_digits_spec s) as [Hds _].
  pose proof (slice_to_from (scan_digits s) s) as Hsplit.
  destruct (ParseInt (slice_to (scan_digits s) s)) as [e|n] eqn:Hn; [discriminate|].
  revert H. unfold_M.
  destruct (slice_from (scan_digits s) s) as [|c rest] eqn:Hrest; [discriminate|].
  destruct (byte_eqb c "e") eqn:Hc; [|discriminate].
  apply byte_eqb_eq in Hc; subst c. cbn [b fst snd].
  intros H. injection H as <- <-. cbn [b].
  exists (slice_to (scan_digits s) s), n. repeat split; try assumption.
  cbn [String.append]. f_equal. symmetry. exact Hsplit.
Qed.

Lemma ParseString_intro (ds str t : string) :
  all_digits ds = true -> ParseInt ds = inr (len str) ->
  ParseString (mkContext (ds +:+ ":" +:+ str +:+ t)) = Ok (NewString str, mkContext t).
Proof.
  intros Hds Hlen. unfold ParseString, bind.
  rewrite GetString_intro by assumption. reflexivity.
Qed.

Lemma ParseString_inv (s : string) (v : Value) (ctx' : Context) :
  ParseString (mkContext s) = Ok (v, ctx') ->
  exists ds str, s = ds +:+ ":" +:+ str +:+ b ctx' /\ v = NewString str /\
                 all_digits ds = true /\ ParseInt ds = inr (len str).
Proof.
  unfold ParseString, bind. intros H.
  destruct (GetString (mkContext s)) as [[str ctx1]| | |] eqn:HG; try discriminate.
  cbn in H. injection H as <- <-.
  destruct (GetString_inv _ _ _ HG) as (ds & Hs & Hds & Hlen).
  exists ds, str. auto.
Qed.

(** ** Locality of the parser

    A successful parse step depends only on the bytes it consumes: the
    cursor splits into a consumed text [c], which does not begin with
    ['e'], and the rest, and the step gives the same result whatever
    follows [c]. *)

Lemma starts_not_e_app (c t : string) : starts_not_e c -> starts_not_e (c +:+ t).
Proof. destruct c; simpl; [intros [] | auto]. Qed.

Lemma starts_not_e_nonempty (c : string) : starts_not_e c -> c <> "".
Proof. destruct c; simpl; [tauto | discriminate]. Qed.

Lemma digits_start_not_e (ds t : string) :
  all_digits ds = true -> ds <> "" -> starts_not_e (ds +:+ t).
Proof.
  intros Hds Hne. destruct ds as [|x ds]; [congruence|]. simpl in *.
  apply andb_true_iff in Hds as [Hx _]. apply isDigit_range in Hx.
  apply not_true_is_false. intros He. apply byte_eqb_eq in He. subst x.
  vm_compute in Hx. destruct Hx as [_ Hx]. now apply Hx.
Qed.

Lemma GetString_local : local GetString.
Proof.
  intros s str ctx' H.
  destruct (GetString_inv _ _ _ H) as (ds & -> & Hds & Hlen).
  destruct (ParseInt_digits_inv _ _ Hds Hlen) as (Hne & _).
  exists (ds +:+ ":" +:+ str). repeat split.
  - now rewrite !string_app_assoc.
  - now apply digits_start_not_e.
  - intros t. rewrite !string_app_assoc. cbn [String.append].
    now apply GetString_intro.
Qed.

Lemma ParseString_local : local ParseString.
Proof.
  intros s v ctx' H.
  destruct (ParseString_inv _ _ _ H) as (ds & str & -> & -> & Hds & Hlen).
  destruct (ParseInt_digits_inv _ _ Hds Hlen) as (Hne & _).
  exists (ds +:+ ":" +:+ str). repeat split.
  - now rewrite !string_app_assoc.
  - now apply digits_start_not_e.
  - intros t. rewrite !string_app_assoc. cbn [String.append].
    now apply ParseString_intro.
Qed.

Lemma ParseNumber_local : local ParseNumber.
Proof.
  intros s v ctx' H.
  destruct (ParseNumber_inv _ _ _ H) as (ds & n & -> & -> & Hds & Hn).
  exists ("i" +:+ ds +:+ "e"). repeat split.
  - cbn [String.append]. now rewrite !string_app_assoc.
  - intros t. cbn [String.append]. rewrite !string_app_assoc.
    now apply (ParseNumber_intro ds t n).
Qed.

(** One step of either loop, after the element has been parsed: the
    closing ['e'] ends the loop, anything else starts the next round. *)
Lemma attempt_e_nil {A} (k : option unit -> M A) :
  (r <- attempt (RemoveACharacter "e") ;; k r) (mkContext "") = k None (mkContext "").
Proof. reflexivity. Qed.

Lemma attempt_e_cons {A} (k : option unit -> M A) (x : ascii) (s : string) :
  (r <- attempt (RemoveACharacter "e") ;; k r) (mkContext (String x s)) =
  if byte_eqb x "e" then k (Some tt) (mkContext s) else k None (mkContext (String x s)).
Proof. unfold_M. destruct (byte_eqb x "e"); reflexivity. Qed.

Lemma attempt_e_not_e {A} (k : option unit -> M A) (c : string) :
  starts_not_e c ->
  (r <- attempt (RemoveACharacter "e") ;; k r) (mkContext c) = k None (mkContext c).
Proof.
  destruct c as [|x c]; simpl; [tauto|]. intros Hx.
  rewrite attempt_e_cons, Hx. reflexivity.
Qed.

Lemma ParseArray_loop_step (pv : M Value) (n : nat) (value : list Value) (ctx : Context) :
  ParseArray_loop pv (S n) value ctx =
  res_bind (pv ctx) (fun r =>
    (r' <- attempt (RemoveACharacter "e") ;;
     match r' with
     | Some _ => ret (mkValue Kind_Array "" 0 (value ++ [fst r]) ∅)
     | None => ParseArray_loop pv n (value ++ [fst r])
     end) (snd r)).
Proof. reflexivity. Qed.

Lemma ParseArray_loop_local (pv : M Value) :
  local pv -> forall n value, local (ParseArray_loop pv n value).
Proof.
  intros Hpv n. induction n as [|n IH]; intros value s v ctx' H; [discriminate|].
  rewrite ParseArray_loop_step in H.
  destruct (pv (mkContext s)) as [[ele [s1]]| | |] eqn:Hele; try discriminate.
  cbn [res_bind fst snd] in H.
  destruct (Hpv _ _ _ Hele) as (c1 & -> & Hc1 & Hloc1). cbn [b] in *.
  assert (forall c t, ParseArray_loop pv (S n) value (mkContext (c1 +:+ c +:+ t)) =
            (r' <- attempt (RemoveACharacter "e") ;;
             match r' with
             | Some _ => ret (mkValue Kind_Array "" 0 (value ++ [ele]) ∅)
             | None => ParseArray_loop pv n (value ++ [ele])
             end) (mkContext (c +:+ t))) as Hstep.
  { intros c t. rewrite ParseArray_loop_step, Hloc1. reflexivity. }
  destruct s1 as [|x s1].
  - rewrite attempt_e_nil in H.
    destruct (IH _ _ _ _ H) as (c & Hc & Hne & _).
    symmetry in Hc. apply string_app_eq_nil in Hc as [-> _]. destruct Hne.
  - rewrite attempt_e_cons in H. destruct (byte_eqb x "e") eqn:Hx.
    + apply byte_eqb_eq in Hx; subst x. injection H as <- <-. cbn [b].
      exists (c1 +:+ "e"). repeat split.
      * now rewrite string_app_assoc.
      * now apply starts_not_e_app.
      * intros t. rewrite string_app_assoc, Hstep. reflexivity.
    + destruct (IH _ _ _ _ H) as (c & Hc & Hne & Hloc).
      exists (c1 +:+ c). repeat split.
      * now rewrite string_app_assoc, <- Hc.
      * now apply starts_not_e_app.
      * intros t. rewrite string_app_assoc, Hstep.
        rewrite attempt_e_not_e by now apply starts_not_e_app.
        apply Hloc.
Qed.

Lemma ParseObject_loop_step (pv : M Value) (n : nat) (value : gmap string Value) (ctx : Context) :
  ParseObject_loop pv (S n) value ctx =
  res_bind (GetString ctx) (fun rk =>
    res_bind (pv (snd rk)) (fun r =>
      (r' <- attempt (RemoveACharacter "e") ;;
       match r' with
       | Some _ => ret (mkValue Kind_Object "" 0 [] (<[fst rk := fst r]> value))
       | None => ParseObject_loop pv n (<[fst rk := fst r]> value)
       end) (snd r))).
Proof. reflexivity. Qed.

Lemma ParseObject_loop_local (pv : M Value) :
  local pv -> forall n value, local (ParseObject_loop pv n value).
Proof.
  intros Hpv n. induction n as [|n IH]; intros value s v ctx' H; [discriminate|].
  rewrite ParseObject_loop_step in H.
  destruct (GetString (mkContext s)) as [[key [s0]]| | |] eqn:Hkey; try discriminate.
  cbn [res_bind fst snd] in H.
  destruct (pv (mkContext s0)) as [[ele [s1]]| | |] eqn:Hele; try discriminate.
  cbn [res_bind fst snd] in H.
  destruct (GetString_local _ _ _ Hkey) as (c0 & -> & Hc0 & Hloc0). cbn [b] in *.
  destruct (Hpv _ _ _ Hele) as (c1 & -> & Hc1 & Hloc1). cbn [b] in *.
  assert (forall c t, ParseObject_loop pv (S n) value (mkContext (c0 +:+ c1 +:+ c +:+ t)) =
            (r' <- attempt (RemoveACharacter "e") ;;
             match r' with
             | Some _ => ret (mkValue Kind_Object "" 0 [] (<[key := ele]> value))
             | None => ParseObject_loop pv n (<[key := ele]> value)
             end) (mkContext (c +:+ t))) as Hstep.
  { intros c t. rewrite ParseObject_loop_step, Hloc0. cbn [res_bind fst snd].
    rewrite Hloc1. reflexivity. }
  destruct s1 as [|x s1].
  - rewrite attempt_e_nil in H.
    destruct (IH _ _ _ _ H) as (c & Hc & Hne & _).
    symmetry in Hc. apply string_app_eq_nil in Hc as [-> _]. destruct Hne.
  - rewrite attempt_e_cons in H. destruct (byte_eqb x "e") eqn:Hx.
    + apply byte_eqb_eq in Hx; subst x. injection H as <- <-. cbn [b].
      exists (c0 +:+ c1 +:+ "e"). repeat split.
      * now rewrite !string_app_assoc.
      * now apply starts_not_e_app.
      * intros t. rewrite !string_app_assoc, Hstep. reflexivity.
    + destruct (IH _ _ _ _ H) as (c & Hc & Hne & Hloc).
      exists (c0 +:+ c1 +:+ c). repeat split.
      * now rewrite !string_app_assoc, <- Hc.
      * now apply starts_not_e_app.
      * intros t. rewrite !string_app_assoc, Hstep.
        rewrite attempt_e_not_e by now apply starts_not_e_app.
        apply Hloc.
Qed.

(** A production that first removes a fixed byte other than ['e']. *)
Lemma remove_then_local {A} (x : ascii) (m : M A) :
  byte_eqb x "e" = false -> local m ->
  local (or_syntax_error (RemoveACharacter x) ;; m).
Proof.
  intros Hx Hm s a ctx' H.
  destruct s as [|y s]; [discriminate|].
  revert H. unfold_M. destruct (byte_eqb y x) eqn:Hy; [|discriminate].
  apply byte_eqb_eq in Hy; subst y. cbn [fst snd]. intros H.
  destruct (Hm _ _ _ H) as (c & -> & Hc & Hloc).
  exists (String x c). repeat split; [exact Hx|].
  intros t. cbn [String.append]. rewrite byte_eqb_refl. cbn [fst snd]. apply Hloc.
Qed.

Lemma ParseArray_local (pv : M Value) (n : nat) : local pv -> local (ParseArray pv n).
Proof.
  intros Hpv. apply remove_then_local; [reflexivity|].
  now apply ParseArray_loop_local.
Qed.

Lemma ParseObject_local (pv : M Value) (n : nat) : local pv -> local (ParseObject pv n).
Proof.
  intros Hpv. apply remove_then_local; [reflexivity|].
  now apply ParseObject_loop_local.
Qed.

Lemma ParseValue_cons (fuel : nat) (c : ascii) (s : string) :
  ParseValue (S fuel) (mkContext (String c s)) = dispatch fuel c (mkContext (String c s)).
Proof. reflexivity. Qed.

Lemma ParseValue_nil (fuel : nat) :
  ParseValue (S fuel) (mkContext "") = Error syntax_error.
Proof. reflexivity. Qed.

Theorem ParseValue_local (fuel : nat) : local (ParseValue fuel).
Proof.
  induction fuel as [|fuel IH]; intros s v ctx' H; [discriminate|].
  destruct s as [|x s]; [discriminate|].
  rewrite ParseValue_cons in H.
  assert (local (dispatch fuel x)) as Hd.
  { unfold dispatch.
    destruct (isDigit x); [apply ParseString_local|].
    destruct (byte_eqb x "i"); [apply ParseNumber_local|].
    destruct (byte_eqb x "l"); [now apply ParseArray_local|].
    destruct (byte_eqb x "d"); [now apply ParseObject_local|].
    intros ? ? ? Hf. discriminate. }
  destruct (Hd _ _ _ H) as (c & Hs & Hc & Hloc).
  exists c. repeat split; try assumption.
  intros t. destruct c as [|y c]; [destruct Hc|].
  cbn [String.append] in *. injection Hs as <- _.
  rewrite ParseValue_cons. apply Hloc.
Qed.

(** Every successful [ParseValue] consumes at least one byte. *)
Corollary ParseValue_consumes (fuel : nat) (s : string) (v : Value) (ctx' : Context) :
  ParseValue fuel (mkContext s) = Ok (v, ctx') ->
  (String.length (b ctx') < String.length s)%nat.
Proof.
  intros H. destruct (ParseValue_local fuel _ _ _ H) as (c & -> & Hc & _).
  rewrite string_length_app. destruct c; [destruct Hc | simpl; lia].
Qed.

(** Bytes after a parsed value do not change the parse. *)
Corollary ParseValue_trailing (fuel : nat) (s t : string) (v : Value) (ctx' : Context) :
  ParseValue fuel (mkContext s) = Ok (v, ctx') ->
  ParseValue fuel (mkContext (s +:+ t)) = Ok (v, mkContext (b ctx' +:+ t)).
Proof.
  intros H. destruct (ParseValue_local fuel _ _ _ H) as (c & -> & _ & Hloc).
  rewrite string_app_assoc. apply Hloc.
Qed.

(** ** Fuel: the parser always returns *)

Lemma RemoveACharacter_returns (c : ascii) (ctx : Context) :
  returns (or_syntax_error (RemoveACharacter c) ctx).
Proof.
  unfold_M. destruct ctx as [[|x s]]; cbn [b]; [exact I|].
  destruct (byte_eqb x c); exact I.
Qed.

Lemma GetString_returns (ctx : Context) : returns (GetString ctx).
Proof.
  unfold GetString. unfold_M. destruct ctx as [s]; cbn [b].
  destruct (ParseInt (slice_to (scan_digits s) s)) as [e|Len]; [exact I|].
  unfold_M.
  destruct (slice_from (scan_digits s) s) as [|x rest]; cbn [b]; [exact I|].
  destruct (byte_eqb x ":"); [|exact I]. cbn [b fst snd].
  destruct (len rest <? Len); exact I.
Qed.

Lemma ParseString_returns (ctx : Context) : returns (ParseString ctx).
Proof.
  unfold ParseString, bind. pose proof (GetString_returns ctx) as H.
  destruct (GetString ctx) as [[str ctx1]| | |]; cbn in *; auto.
Qed.

Lemma ParseNumber_returns (ctx : Context) : returns (ParseNumber ctx).
Proof.
  unfold ParseNumber. unfold_M. destruct ctx as [[|x s]]; cbn [b]; [exact I|].
  destruct (byte_eqb x "i"); [|exact I]. cbn [b fst snd].
  destruct (ParseInt (slice_to (scan_digits s) s)) as [e|n]; [exact I|].
  unfold_M.
  destruct (slice_from (scan_digits s) s) as [|y rest]; cbn [b]; [exact I|].
  destruct (byte_eqb y "e"); exact I.
Qed.

Lemma local_consumes {A} (m : M A) (s : string) (a : A) (ctx' : Context) :
  local m -> m (mkContext s) = Ok (a, ctx') ->
  (String.length (b ctx') < String.length s)%nat.
Proof.
  intros Hm H. destruct (Hm _ _ _ H) as (c & -> & Hc & _).
  rewrite string_length_app. destruct c; [destruct Hc | simpl; lia].
Qed.

Section Loops.

Variable pv : M Value.
Variable F : nat.
Hypothesis pv_local : local pv.
Hypothesis pv_returns : forall s, (String.length s < F)%nat -> returns (pv (mkContext s)).

(** Each round of the loop shortens the cursor, so as many rounds as
    there are bytes left, plus one, are never used up. *)
Lemma ParseArray_loop_returns (n : nat) (value : list Value) (s : string) :
  (String.length s < n)%nat -> (String.length s < F)%nat ->
  returns (ParseArray_loop pv n value (mkContext s)).
Proof.
  revert value s; induction n as [|n IH]; intros value s Hn HF; [lia|].
  rewrite ParseArray_loop_step.
  pose proof (pv_returns s HF) as Hr.
  destruct (pv (mkContext s)) as [[ele [s1]]| | |] eqn:Hele; cbn [res_bind fst snd]; auto.
  pose proof (local_consumes _ _ _ _ pv_local Hele) as Hlt. cbn [b] in Hlt.
  destruct s1 as [|x s1].
  - rewrite attempt_e_nil. apply IH; simpl in *; lia.
  - rewrite attempt_e_cons. destruct (byte_eqb x "e"); [exact I|].
    apply IH; simpl in *; lia.
Qed.

Lemma ParseObject_loop_returns (n : nat) (value : gmap string Value) (s : string) :
  (String.length s < n)%nat -> (String.length s < F)%nat ->
  returns (ParseObject_loop pv n value (mkContext s)).
Proof.
  revert value s; induction n as [|n IH]; intros value s Hn HF; [lia|].
  rewrite ParseObject_loop_step.
  pose proof (GetString_returns (mkContext s)) as Hk.
  destruct (GetString (mkContext s)) as [[key [s0]]| | |] eqn:Hkey; cbn [res_bind fst snd]; auto.
  pose proof (local_consumes _ _ _ _ GetString_local Hkey) as Hlt0. cbn [b] in Hlt0.
  pose proof (pv_returns s0 ltac:(lia)) as Hr.
  destruct (pv (mkContext s0)) as [[ele [s1]]| | |] eqn:Hele; cbn [res_bind fst snd]; auto.
  pose proof (local_consumes _ _ _ _ pv_local Hele) as Hlt. cbn [b] in Hlt.
  destruct s1 as [|x s1].
  - rewrite attempt_e_nil. apply IH; simpl in *; lia.
  - rewrite attempt_e_cons. destruct (byte_eqb x "e"); [exact I|].
    apply IH; simpl in *; lia.
Qed.

End Loops.

Lemma remove_then_returns {A} (x : ascii) (m : M A) (y : ascii) (s : string) :
  returns (m (mkContext s)) ->
  returns ((or_syntax_error (RemoveACharacter x) ;; m) (mkContext (String y s))).
Proof. unfold_M. destruct (byte_eqb y x); cbn [fst snd]; [tauto | intros _; exact I]. Qed.

(** With more fuel than input bytes, [ParseValue] returns. *)
Theorem ParseValue_fuel_enough (fuel : nat) (s : string) :
  (String.length s < fuel)%nat -> returns (ParseValue fuel (mkContext s)).
Proof.
  revert s; induction fuel as [|fuel IH]; intros s Hlen; [lia|].
  destruct s as [|x s]; [exact I|].
  rewrite ParseValue_cons. unfold dispatch. simpl in Hlen.
  destruct (isDigit x); [apply ParseString_returns|].
  destruct (byte_eqb x "i"); [apply ParseNumber_returns|].
  destruct (byte_eqb x "l").
  { apply remove_then_returns.
    apply (ParseArray_loop_returns _ fuel (ParseValue_local fuel) IH); lia. }
  destruct (byte_eqb x "d").
  { apply remove_then_returns.
    apply (ParseObject_loop_returns _ fuel (ParseValue_local fuel) IH); lia. }
  exact I.
Qed.

Lemma ParseArray_loop_refines (pv pv' : M Value) :
  refines pv pv' ->
  forall n value, refines (ParseArray_loop pv n value) (ParseArray_loop pv' (S n) value).
Proof.
  intros Hpv n. induction n as [|n IH]; intros value ctx Hr; [destruct Hr|].
  rewrite ParseArray_loop_step in Hr. rewrite (ParseArray_loop_step pv), ParseArray_loop_step.
  destruct (pv ctx) as [[ele [s1]]| | |] eqn:Hele; try destruct Hr;
    rewrite (Hpv ctx) by (rewrite Hele; exact I); rewrite Hele; [|reflexivity].
  cbn [res_bind fst snd] in *. destruct s1 as [|x s1].
  - rewrite !attempt_e_nil in *. now apply IH.
  - rewrite !attempt_e_cons in *. destruct (byte_eqb x "e"); [reflexivity | now apply IH].
Qed.

Lemma ParseObject_loop_refines (pv pv' : M Value) :
  refines pv pv' ->
  forall n value, refines (ParseObject_loop pv n value) (ParseObject_loop pv' (S n) value).
Proof.
  intros Hpv n. induction n as [|n IH]; intros value ctx Hr; [destruct Hr|].
  rewrite ParseObject_loop_step in Hr. rewrite (ParseObject_loop_step pv), ParseObject_loop_step.
  destruct (GetString ctx) as [[key ctx0]| | |]; try destruct Hr; [|reflexivity].
  cbn [res_bind fst snd] in *.
  destruct (pv ctx0) as [[ele [s1]]| | |] eqn:Hele; try destruct Hr;
    rewrite (Hpv ctx0) by (rewrite Hele; exact I); rewrite Hele; [|reflexivity].
  cbn [res_bind fst snd] in *. destruct s1 as [|x s1].
  - rewrite !attempt_e_nil in *. now apply IH.
  - rewrite !attempt_e_cons in *. destruct (byte_eqb x "e"); [reflexivity | now apply IH].
Qed.

Lemma remove_then_refines {A} (x : ascii) (m m' : M A) :
  refines m m' ->
  refines (or_syntax_error (RemoveACharacter x) ;; m)
          (or_syntax_error (RemoveACharacter x) ;; m').
Proof.
  intros Hm [[|y s]]; unfold_M; [reflexivity|].
  destruct (byte_eqb y x); cbn [fst snd]; [apply Hm | reflexivity].
Qed.

Lemma ParseValue_fuel_S (fuel : nat) : refines (ParseValue fuel) (ParseValue (S fuel)).
Proof.
  induction fuel as [|fuel IH]; intros [s] Hr; [destruct Hr|].
  destruct s as [|x s]; [reflexivity|].
  rewrite ParseValue_cons in Hr. rewrite !ParseValue_cons. revert Hr. unfold dispatch.
  destruct (isDigit x); [reflexivity|].
  destruct (byte_eqb x "i"); [reflexivity|].
  destruct (byte_eqb x "l").
  { apply remove_then_refines. now apply ParseArray_loop_refines. }
  destruct (byte_eqb x "d").
  { apply remove_then_refines. now apply ParseObject_loop_refines. }
  reflexivity.
Qed.

(** More fuel never changes a result that was returned. *)
Theorem ParseValue_fuel_mono (fuel fuel' : nat) (ctx : Context) :
  (fuel <= fuel')%nat -> returns (ParseValue fuel ctx) ->
  ParseValue fuel' ctx = ParseValue fuel ctx.
Proof.
  intros Hle Hr. induction Hle as [|fuel' Hle IH]; [reflexivity|].
  rewrite <- IH. apply ParseValue_fuel_S. now rewrite IH.
Qed.

(** [Decode] in terms of any sufficient amount of fuel. *)
Lemma Decode_fuel (fuel : nat) (s : string) :
  returns (ParseValue fuel (mkContext s)) ->
  Decode s = res_bind (ParseValue fuel (mkContext s)) (fun r => Ok (fst r)).
Proof.
  intros Hr. unfold Decode. f_equal.
  destruct (Nat.le_ge_cases fuel (S (String.length s))) as [Hle|Hge].
  - now apply ParseValue_fuel_mono.
  - symmetry. apply ParseValue_fuel_mono; [assumption|].
    apply ParseValue_fuel_enough. lia.
Qed.

Lemma Decode_Ok (fuel : nat) (s : string) (v : Value) (ctx' : Context) :
  ParseValue fuel (mkContext s) = Ok (v, ctx') -> Decode s = Ok v.
Proof. intros H. rewrite (Decode_fuel fuel) by (rewrite H; exact I). now rewrite H. Qed.

Lemma Decode_Error (fuel : nat) (s : string) (e : error) :
  ParseValue fuel (mkContext s) = Error e -> Decode s = Error e.
Proof. intros H. rewrite (Decode_fuel fuel) by (rewrite H; exact I). now rewrite H. Qed.

(** ** Decoding what [Encode] writes *)

Lemma parses_as_mono (fuel fuel' : nat) (c : string) (v : Value) :
  (fuel <= fuel')%nat -> parses_as fuel c v -> parses_as fuel' c v.
Proof.
  intros Hle H t. rewrite (ParseValue_fuel_mono fuel fuel') by (rewrite ?H; auto; exact I).
  apply H.
Qed.

Lemma parses_as_not_e (fuel : nat) (c : string) (v : Value) :
  parses_as fuel c v -> starts_not_e c.
Proof.
  intros H. specialize (H ""). rewrite string_app_nil_r in H.
  destruct (ParseValue_local fuel _ _ _ H) as (c' & Hc & Hne & _).
  cbn [b] in Hc. rewrite string_app_nil_r in Hc. now subst c'.
Qed.

Lemma GetString_toBencodeString (key t : string) :
  len key <= maxInt64 ->
  GetString (mkContext (toBencodeString key +:+ t)) = Ok (key, mkContext t).
Proof.
  intros Hlen. unfold toBencodeString. rewrite !string_app_assoc.
  destruct (FormatInt_digits (len key) (len_nonneg key)) as (_ & Hall & _).
  apply GetString_intro; [assumption|].
  apply ParseInt_FormatInt. pose proof (len_nonneg key). lia.
Qed.

Lemma parses_as_string (fuel : nat) (s : string) :
  len s <= maxInt64 -> parses_as (S fuel) (toBencodeString s) (NewString s).
Proof.
  intros Hlen t. unfold toBencodeString. rewrite !string_app_assoc.
  destruct (FormatInt_digits (len s) (len_nonneg s)) as (Hne & Hall & _).
  assert (ParseInt (FormatInt (len s)) = inr (len s)) as Hp.
  { apply ParseInt_FormatInt. pose proof (len_nonneg s). lia. }
  destruct (FormatInt (len s)) as [|x ds] eqn:Hf; [congruence|].
  cbn [String.append]. rewrite ParseValue_cons. unfold dispatch.
  pose proof Hall as Hx. simpl in Hx. apply andb_true_iff in Hx as [-> _].
  apply (ParseString_intro (String x ds) s t); assumption.
Qed.

Lemma parses_as_number (fuel : nat) (n : Z) :
  0 <= n <= maxInt64 ->
  parses_as (S fuel) ("i" +:+ FormatInt n +:+ "e") (NewNumber n).
Proof.
  intros Hn t. cbn [String.append]. rewrite ParseValue_cons.
  change (dispatch fuel "i") with ParseNumber.
  rewrite string_app_assoc.
  destruct (FormatInt_digits n) as (_ & Hall & _); [lia|].
  apply (ParseNumber_intro (FormatInt n) t n); [assumption|].
  now apply ParseInt_FormatInt.
Qed.

Section RoundTrip.

Variable range_order : forall A : Type, list (string * A) -> list (string * A).

Lemma scalar_encoded (v : Value) :
  scalar v ->
  exists c, Encode range_order v = Ok c /\ forall fuel, parses_as (S fuel) c v.
Proof.
  intros [s Hs | n Hn].
  - exists (toBencodeString s). split; [reflexivity|].
    intros fuel. now apply parses_as_string.
  - exists ("i" +:+ FormatInt n +:+ "e"). split; [reflexivity|].
    intros fuel. now apply parses_as_number.
Qed.

Lemma Encode_array (a : list Value) (cs : list string) :
  Forall2 (fun v c => Encode range_order v = Ok c) a cs ->
  Encode range_order (ArrayValue a) = Ok ("l" +:+ string_concat cs +:+ "e").
Proof.
  intros H. cbn [Encode ArrayValue Z.eqb Kind_Array Kind_String Kind_Number].
  assert (forall acc,
    for_range (fun prettify ai =>
                 res_bind (Encode range_order ai) (fun s => Ok (prettify +:+ s))) a acc
    = Ok (acc +:+ string_concat cs)) as Hloop.
  { induction H as [|v c a cs Hv _ IH]; intros acc; cbn [for_range string_concat].
    - now rewrite string_app_nil_r.
    - rewrite Hv. cbn [res_bind]. rewrite IH. now rewrite string_app_assoc. }
  rewrite Hloop. cbn [res_bind]. now rewrite string_app_assoc.
Qed.

End RoundTrip.

(** The array loop on the texts of [vs], one after the other, then
    ['e']: it needs one round per element. *)
Lemma ParseArray_loop_elements (pv : M Value) (cs : list string) (vs : list Value) :
  Forall2 (fun c v => starts_not_e c /\ forall t, pv (mkContext (c +:+ t)) = Ok (v, mkContext t))
          cs vs ->
  vs <> [] ->
  forall n value t, (length vs <= n)%nat ->
    ParseArray_loop pv n value (mkContext (string_concat cs +:+ "e" +:+ t))
    = Ok (mkValue Kind_Array "" 0 (value ++ vs) ∅, mkContext t).
Proof.
  induction 1 as [|c v cs vs [Hc Hv] Hrest IH]; intros Hne n value t Hn; [congruence|].
  destruct n as [|n]; [simpl in Hn; lia|].
  rewrite ParseArray_loop_step. cbn [string_concat]. rewrite string_app_assoc, Hv.
  cbn [res_bind fst snd]. destruct Hrest as [|c' v' cs vs Hcv' Hrest].
  - cbn [string_concat String.append]. rewrite attempt_e_cons. reflexivity.
  - rewrite attempt_e_not_e.
    + rewrite IH; [| discriminate | simpl in *; lia].
      now rewrite <- app_assoc.
    + cbn [string_concat]. rewrite string_app_assoc.
      apply starts_not_e_app. apply Hcv'.
Qed.

Lemma parses_as_array (fuel : nat) (cs : list string) (vs : list Value) :
  Forall2 (parses_as fuel) cs vs -> vs <> [] -> (length vs <= fuel)%nat ->
  parses_as (S fuel) ("l" +:+ string_concat cs +:+ "e") (ArrayValue vs).
Proof.
  intros H Hne Hn t. cbn [String.append]. rewrite ParseValue_cons.
  change (dispatch fuel "l") with (ParseArray (ParseValue fuel) fuel).
  unfold ParseArray. unfold_M. cbn [fst snd].
  rewrite string_app_assoc.
  apply (ParseArray_loop_elements (ParseValue fuel) cs vs); [| assumption..].
  eapply Forall2_impl; [exact H|]. intros c v Hcv. split; [|exact Hcv].
  now apply (parses_as_not_e fuel c v).
Qed.

(** ** Truncated input

    Cutting a complete value short makes the parser run off the end of
    the input, which every production reports as [syntax_error]. *)

Lemma string_app_split (p q c s : string) :
  p +:+ q = c +:+ s ->
  (exists q', q' <> "" /\ c = p +:+ q' /\ q = q' +:+ s) \/
  (exists p1, p = c +:+ p1 /\ s = p1 +:+ q).
Proof.
  revert c; induction p as [|x p IH]; intros c H.
  - destruct c as [|y c].
    + right. exists "". simpl in *. auto.
    + left. exists (String y c). simpl in *. repeat split; [discriminate | assumption].
  - destruct c as [|y c].
    + right. exists (String x p). simpl in *. auto.
    + simpl in H. injection H as <- H.
      destruct (IH c H) as [(q' & Hne & -> & ->) | (p1 & -> & ->)].
      * left. exists q'. auto.
      * right. exists p1. auto.
Qed.

Lemma GetString_only_syntax_errors : only_syntax_errors GetString.
Proof.
  intros [s]. unfold GetString. unfold_M.
  destruct (ParseInt (slice_to (scan_digits s) s)) as [e|Len]; [now right|].
  unfold_M.
  destruct (slice_from (scan_digits s) s) as [|x rest]; cbn [b]; [now right|].
  destruct (byte_eqb x ":"); [|now right]. cbn [b fst snd].
  destruct (len rest <? Len); [now right | left; eauto].
Qed.

Lemma ParseString_only_syntax_errors : only_syntax_errors ParseString.
Proof.
  intros ctx. unfold ParseString, bind.
  destruct (GetString_only_syntax_errors ctx) as [[[str ctx1] ->] | ->]; cbn; eauto.
Qed.

Lemma ParseNumber_only_syntax_errors : only_syntax_errors ParseNumber.
Proof.
  intros [s]. unfold ParseNumber. unfold_M.
  destruct s as [|x s]; [now right|].
  destruct (byte_eqb x "i"); [|now right]. cbn [b fst snd].
  destruct (ParseInt (slice_to (scan_digits s) s)) as [e|n]; [now right|].
  unfold_M.
  destruct (slice_from (scan_digits s) s) as [|y rest]; cbn [b]; [now right|].
  destruct (byte_eqb y "e"); [left; eauto | now right].
Qed.

Lemma local_truncates {A} (m : M A) :
  local m -> only_syntax_errors m -> truncates m m.
Proof.
  intros Hloc Herr c a Hc p q -> Hq.
  destruct (Herr (mkContext p)) as [[[a' [s']] Hok] | Hfail]; [|assumption].
  exfalso. destruct (Hloc _ _ _ Hok) as (c' & -> & _ & Hloc'). cbn [b] in *.
  specialize (Hc ""). rewrite string_app_nil_r, !string_app_assoc, Hloc' in Hc.
  injection Hc as _ Hnil. apply string_app_eq_nil in Hnil as [_ Hnil]. congruence.
Qed.

Section TruncatedLoops.

Variables pv pv' : M Value.
Hypothesis pv_local : local pv.
Hypothesis pv_refines : refines pv pv'.
Hypothesis pv_truncates : truncates pv pv'.

Lemma pv'_consumed (c t : string) (v : Value) :
  (forall t, pv (mkContext (c +:+ t)) = Ok (v, mkContext t)) ->
  pv' (mkContext (c +:+ t)) = Ok (v, mkContext t).
Proof. intros H. rewrite pv_refines; rewrite H; [reflexivity | exact I]. Qed.

(** A text consumed whole by a local step, as a text consumed whatever
    follows. *)
Lemma local_whole {A} (m : M A) (c : string) (a : A) :
  local m -> m (mkContext c) = Ok (a, mkContext "") ->
  forall t, m (mkContext (c +:+ t)) = Ok (a, mkContext t).
Proof.
  intros Hm H. destruct (Hm _ _ _ H) as (c' & Hc & _ & Hloc).
  cbn [b] in Hc. rewrite string_app_nil_r in Hc. now subst c'.
Qed.

Lemma ParseArray_loop_truncates (n : nat) (value : list Value) :
  truncates (ParseArray_loop pv n value) (ParseArray_loop pv' (S n) value).
Proof.
  revert value; induction n as [|n IH]; intros value c v Hc p q Hpq Hq;
    [specialize (Hc ""); discriminate|].
  pose proof (Hc "") as H. rewrite string_app_nil_r, ParseArray_loop_step in H.
  destruct (pv (mkContext c)) as [[ele [s1]]| | |] eqn:Hele; try discriminate.
  cbn [res_bind fst snd] in H.
  destruct (pv_local _ _ _ Hele) as (c1 & Hsplit & Hc1 & Hloc1). cbn [b] in Hsplit.
  rewrite Hsplit in Hpq. symmetry in Hpq.
  rewrite (ParseArray_loop_step pv').
  destruct (string_app_split _ _ _ _ Hpq) as [(q' & Hq' & Hc1' & _) | (p1 & -> & Hs1)].
  - rewrite (pv_truncates c1 ele Hloc1 p q' Hc1' Hq'). reflexivity.
  - rewrite (pv'_consumed c1 p1 ele Hloc1). cbn [res_bind fst snd].
    assert (pv' (mkContext "") = Error syntax_error) as Hnil.
    { apply (pv_truncates c1 ele Hloc1 "" c1); [reflexivity|].
      now apply starts_not_e_nonempty. }
    destruct s1 as [|x s1].
    { symmetry in Hs1. apply string_app_eq_nil in Hs1 as [_ ?]. congruence. }
    rewrite attempt_e_cons in H. destruct (byte_eqb x "e") eqn:Hx.
    + injection H as _ Hs1nil. subst s1.
      destruct p1 as [|y p1].
      * rewrite attempt_e_nil, ParseArray_loop_step, Hnil. reflexivity.
      * simpl in Hs1. injection Hs1 as _ Hs1. symmetry in Hs1.
        apply string_app_eq_nil in Hs1 as [_ ?]. congruence.
    + pose proof (local_whole _ _ _ (ParseArray_loop_local pv pv_local n _) H) as Hrest.
      pose proof (IH _ _ _ Hrest p1 q Hs1 Hq) as Htrunc.
      destruct p1 as [|y p1].
      * rewrite attempt_e_nil. exact Htrunc.
      * simpl in Hs1. injection Hs1 as -> _.
        rewrite attempt_e_cons, Hx. exact Htrunc.
Qed.

Lemma ParseObject_loop_truncates (n : nat) (value : gmap string Value) :
  truncates (ParseObject_loop pv n value) (ParseObject_loop pv' (S n) value).
Proof.
  revert value; induction n as [|n IH]; intros value c v Hc p q Hpq Hq;
    [specialize (Hc ""); discriminate|].
  pose proof (Hc "") as H. rewrite string_app_nil_r, ParseObject_loop_step in H.
  destruct (GetString (mkContext c)) as [[key [s0]]| | |] eqn:Hkey; try discriminate.
  cbn [res_bind fst snd] in H.
  destruct (pv (mkContext s0)) as [[ele [s1]]| | |] eqn:Hele; try discriminate.
  cbn [res_bind fst snd] in H.
  destruct (GetString_local _ _ _ Hkey) as (c0 & Hsplit0 & Hc0 & Hloc0). cbn [b] in Hsplit0.
  destruct (pv_local _ _ _ Hele) as (c1 & Hsplit & Hc1 & Hloc1). cbn [b] in Hsplit.
  rewrite Hsplit0 in Hpq. symmetry in Hpq.
  rewrite (ParseObject_loop_step pv').
  destruct (string_app_split _ _ _ _ Hpq) as [(q' & Hq' & Hc0' & _) | (p0 & -> & Hs0)].
  { rewrite (local_truncates _ GetString_local GetString_only_syntax_errors
               c0 key Hloc0 p q' Hc0' Hq').
    reflexivity. }
  rewrite Hloc0. cbn [res_bind fst snd].
  rewrite Hsplit in Hs0. symmetry in Hs0.
  destruct (string_app_split _ _ _ _ Hs0) as [(q' & Hq' & Hc1' & _) | (p1 & -> & Hs1)].
  { rewrite (pv_truncates c1 ele Hloc1 p0 q' Hc1' Hq'). reflexivity. }
  rewrite (pv'_consumed c1 p1 ele Hloc1). cbn [res_bind fst snd].
  assert (GetString (mkContext "") = Error syntax_error) as Hnil by reflexivity.
  destruct s1 as [|x s1].
  { symmetry in Hs1. apply string_app_eq_nil in Hs1 as [_ ?]. congruence. }
  rewrite attempt_e_cons in H. destruct (byte_eqb x "e") eqn:Hx.
  - injection H as _ Hs1nil. subst s1.
    destruct p1 as [|y p1].
    + rewrite attempt_e_nil, ParseObject_loop_step, Hnil. reflexivity.
    + simpl in Hs1. injection Hs1 as _ Hs1. symmetry in Hs1.
      apply string_app_eq_nil in Hs1 as [_ ?]. congruence.
  - pose proof (local_whole _ _ _ (ParseObject_loop_local pv pv_local n _) H) as Hrest.
    pose proof (IH _ _ _ Hrest p1 q Hs1 Hq) as Htrunc.
    destruct p1 as [|y p1].
    + rewrite attempt_e_nil. exact Htrunc.
    + simpl in Hs1. injection Hs1 as -> _.
      rewrite attempt_e_cons, Hx. exact Htrunc.
Qed.

End TruncatedLoops.

Lemma remove_then_truncates {A} (x : ascii) (m m' : M A) :
  truncates m m' ->
  forall c a,
    (forall t, (or_syntax_error (RemoveACharacter x) ;; m) (mkContext (c +:+ t))
               = Ok (a, mkContext t)) ->
    forall y p q, c = String y p +:+ q -> q <> "" ->
      (or_syntax_error (RemoveACharacter x) ;; m') (mkContext (String y p))
      = Error syntax_error.
Proof.
  intros Hm c a Hc y p q -> Hq. revert Hc. unfold_M. cbn [String.append].
  intros Hc. destruct (byte_eqb y x) eqn:Hy; [|specialize (Hc ""); discriminate].
  cbn [fst snd] in *. exact (Hm (p +:+ q) a Hc p q eq_refl Hq).
Qed.

Theorem ParseValue_truncates (fuel : nat) :
  truncates (ParseValue fuel) (ParseValue (S fuel)).
Proof.
  induction fuel as [|fuel IH]; intros c v Hc p q Hpq Hq;
    [specialize (Hc ""); discriminate|].
  destruct p as [|y p]; [reflexivity|]. subst c.
  rewrite ParseValue_cons. cbn [String.append] in Hc.
  assert (forall t, dispatch fuel y (mkContext ((String y p +:+ q) +:+ t))
                    = Ok (v, mkContext t)) as Hd.
  { intros t. rewrite <- (Hc t). cbn [String.append]. now rewrite ParseValue_cons. }
  clear Hc. revert Hd. unfold dispatch.
  destruct (isDigit y).
  { intros Hd.
    exact (local_truncates _ ParseString_local ParseString_only_syntax_errors
             _ v Hd (String y p) q eq_refl Hq). }
  destruct (byte_eqb y "i").
  { intros Hd.
    exact (local_truncates _ ParseNumber_local ParseNumber_only_syntax_errors
             _ v Hd (String y p) q eq_refl Hq). }
  destruct (byte_eqb y "l").
  { intros Hd. refine (remove_then_truncates "l" _ _ _ _ v Hd y p q eq_refl Hq).
    apply ParseArray_loop_truncates;
      [apply ParseValue_local | apply ParseValue_fuel_S | exact IH]. }
  destruct (byte_eqb y "d").
  { intros Hd. refine (remove_then_truncates "d" _ _ _ _ v Hd y p q eq_refl Hq).
    apply ParseObject_loop_truncates;
      [apply ParseValue_local | apply ParseValue_fuel_S | exact IH]. }
  intros Hd. specialize (Hd ""). discriminate.
Qed.

(** ** Dictionaries: the entries are inserted in input order *)

Lemma toBencodeString_not_e (key t : string) : starts_not_e (toBencodeString key +:+ t).
Proof.
  unfold toBencodeString. rewrite string_app_assoc.
  destruct (FormatInt_digits (len key) (len_nonneg key)) as (Hne & Hall & _).
  now apply digits_start_not_e.
Qed.

Lemma ParseObject_loop_entries (pv : M Value) (entries : list entry) :
  Forall (fun e => len (e_key e) <= maxInt64 /\
                   forall t, pv (mkContext (e_text e +:+ t)) = Ok (e_value e, mkContext t))
         entries ->
  entries <> [] ->
  forall n value t, (length entries <= n)%nat ->
    ParseObject_loop pv n value (mkContext (dict_text entries +:+ "e" +:+ t))
    = Ok (mkValue Kind_Object "" 0 [] (insert_all value entries), mkContext t).
Proof.
  induction 1 as [|e entries [Hk Hv] Hrest IH]; intros Hne n value t Hn; [congruence|].
  destruct n as [|n]; [simpl in Hn; lia|].
  rewrite ParseObject_loop_step. unfold dict_text. cbn [map string_concat].
  rewrite !string_app_assoc, GetString_toBencodeString by assumption.
  cbn [res_bind fst snd]. rewrite Hv. cbn [res_bind fst snd].
  destruct entries as [|e' entries].
  - cbn [map string_concat String.append]. rewrite attempt_e_cons. reflexivity.
  - rewrite attempt_e_not_e.
    + apply IH; [discriminate | simpl in *; lia].
    + cbn [map string_concat]. rewrite !string_app_assoc. apply toBencodeString_not_e.
Qed.

Lemma parses_as_object (fuel : nat) (entries : list entry) :
  Forall (fun e => len (e_key e) <= maxInt64 /\ parses_as fuel (e_text e) (e_value e)) entries ->
  entries <> [] -> (length entries <= fuel)%nat ->
  parses_as (S fuel) ("d" +:+ dict_text entries +:+ "e") (ObjectValue (insert_all ∅ entries)).
Proof.
  intros H Hne Hn t. cbn [String.append]. rewrite ParseValue_cons.
  change (dispatch fuel "d") with (ParseObject (ParseValue fuel) fuel).
  unfold ParseObject. unfold_M. cbn [fst snd].
  rewrite string_app_assoc.
  now apply (ParseObject_loop_entries (ParseValue fuel) entries).
Qed.

(** Last write wins: the value under a key is that of its last entry. *)
Lemma insert_all_last (value : gmap string Value) (before after : list entry) (e : entry) :
  Forall (fun e' => e_key e' <> e_key e) after ->
  insert_all value (before ++ e :: after) !! e_key e = Some (e_value e).
Proof.
  intros Hafter. unfold insert_all. rewrite fold_left_app. cbn [fold_left].
  generalize (fold_left (fun m e0 => <[e_key e0 := e_value e0]> m) before value).
  intros m.
  assert (<[e_key e := e_value e]> m !! e_key e = Some (e_value e)) as Hm
    by apply lookup_insert_eq.
  revert Hm. generalize (<[e_key e := e_value e]> m). clear m.
  induction Hafter as [|e' after Hne _ IH]; intros m Hm; cbn [fold_left]; [assumption|].
  apply IH. rewrite lookup_insert_ne; assumption.
Qed.

Example NewArray_example :
  NewArray (fun _ l => l)
    (HSlice [HInt 1; HString "a"; HSlice [HInt 2]; HMap (<["k" := HInt 3]> ∅)])
  = Ok (ArrayValue [NewNumber 1; NewString "a"; ArrayValue [NewNumber 2];
                    ObjectValue (<["k" := NewNumber 3]> ∅)]).
Proof. vm_compute. reflexivity. Qed.

Example NewArray_unsupported_example :
  NewArray (fun _ l => l) (HSlice [HInt 1; HSlice [HOther]]) = Error only_support.
Proof. vm_compute. reflexivity. Qed.

(** ** Induction on values and on host literals *)

Lemma list_sum_elem {A} (f : A -> nat) (l : list A) (x : A) :
  x ∈ l -> (f x <= fold_right (fun y acc => f y + acc)%nat O l)%nat.
Proof.
  induction 1 as [x l | x y l _ IH]; cbn [fold_right]; lia.
Qed.

Lemma map_sum_elem {A} (f : A -> nat) (m : gmap string A) (k : string) (x : A) :
  m !! k = Some x -> (f x <= map_fold (fun _ y acc => f y + acc)%nat O m)%nat.
Proof.
  intros Hk. rewrite map_fold_foldr.
  apply elem_of_map_to_list in Hk. revert Hk.
  generalize (map_to_list m). intros l.
  induction l as [|[k' x'] l IH]; intros Hl; [inversion Hl|].
  cbn [foldr uncurry]. apply elem_of_cons in Hl as [Heq | Hl].
  - injection Heq as _ <-. lia.
  - specialize (IH Hl). lia.
Qed.

Lemma Value_nested_ind (P : Value -> Prop) :
  (forall kind string_ number array object,
      Forall P array -> map_Forall (fun _ => P) object ->
      P (mkValue kind string_ number array object)) ->
  forall v, P v.
Proof.
  intros Hstep v.
  assert (forall n v, (Value_size v < n)%nat -> P v) as Hn; [|apply (Hn (S (Value_size v))); lia].
  clear v. induction n as [|n IH]; intros v Hv; [lia|].
  destruct v as [k s num a o]. apply Hstep.
  - apply Forall_forall. intros x Hx. apply IH.
    pose proof (list_sum_elem Value_size a x Hx). cbn [Value_size] in Hv. lia.
  - intros key x Hx. apply IH.
    pose proof (map_sum_elem Value_size o key x Hx). cbn [Value_size] in Hv. lia.
Qed.

Lemma Host_nested_ind (P : Host -> Prop) :
  (forall n, P (HInt n)) -> (forall s, P (HString s)) -> P HOther ->
  (forall l, Forall P l -> P (HSlice l)) ->
  (forall m, map_Forall (fun _ => P) m -> P (HMap m)) ->
  forall h, P h.
Proof.
  intros Hint Hstr Hother Hslice Hmap h.
  assert (forall n h, (Host_size h < n)%nat -> P h) as Hn; [|apply (Hn (S (Host_size h))); lia].
  clear h. induction n as [|n IH]; intros h Hh; [lia|].
  destruct h as [z | s | l | m |]; auto.
  - apply Hslice. apply Forall_forall. intros x Hx. apply IH.
    pose proof (list_sum_elem Host_size l x Hx). cbn [Host_size] in Hh. lia.
  - apply Hmap. intros key x Hx. apply IH.
    pose proof (map_sum_elem Host_size m key x Hx). cbn [Host_size] in Hh. lia.
Qed.

(** ** Loops that cannot fail *)

Lemma for_range_Ok {A S : Type} (body : S -> A -> res S) (l : list A) :
  (forall x, x ∈ l -> forall s, exists s', body s x = Ok s') ->
  forall s, exists s', for_range body l s = Ok s'.
Proof.
  induction l as [|x l IH]; intros Hbody s; cbn [for_range]; [eauto|].
  destruct (Hbody x ltac:(left) s) as [s1 ->]. cbn [res_bind].
  apply IH. intros y Hy. apply Hbody. now right.
Qed.


(** ** The encoder and the pretty-printer are total *)

Section Total.

Variable range_order : forall A : Type, list (string * A) -> list (string * A).
Hypothesis range_order_perm : forall A (l : list (string * A)), range_order A l ≡ₚ l.

(** What a [range] over a map of results visits are results of entries
    of the map. *)
Lemma range_map_fmap_elem {A B} (f : A -> B) (m : gmap string A) (kv : string * B) :
  kv ∈ range_map range_order (f <$> m) ->
  exists x, m !! fst kv = Some x /\ snd kv = f x.
Proof.
  unfold range_map. rewrite range_order_perm. destruct kv as [k r].
  rewrite elem_of_map_to_list, lookup_fmap. cbn [fst snd].
  destruct (m !! k) as [x|]; cbn; [|discriminate].
  intros H. injection H as <-. eauto.
Qed.

Lemma range_map_fmap_visits {A B} (f : A -> B) (m : gmap string A) (k : string) (x : A) :
  m !! k = Some x -> (k, f x) ∈ range_map range_order (f <$> m).
Proof.
  intros Hk. unfold range_map. rewrite range_order_perm.
  rewrite elem_of_map_to_list, lookup_fmap, Hk. reflexivity.
Qed.

Lemma Encode_total (v : Value) : WellKinded v -> exists s, Encode range_order v = Ok s.
Proof.
  induction v as [kind string_ number array object IHa IHo] using Value_nested_ind.
  intros Hwk. inversion Hwk as [? ? ? ? ? Hkind Ha Ho]; subst.
  destruct Hkind as [-> | [-> | [-> | ->]]];
    cbn [Encode Z.eqb Kind_String Kind_Number Kind_Array Kind_Object Pos.eqb]; eauto.
  - destruct (for_range_Ok
                (fun prettify ai =>
                   res_bind (Encode range_order ai) (fun s => Ok (prettify +:+ s)))
                array) with (s := "l") as [s' ->]; [|cbn; eauto].
    intros x Hx s. rewrite Forall_forall in IHa, Ha.
    destruct (IHa x Hx (Ha x Hx)) as [sx ->]. cbn. eauto.
  - destruct (for_range_Ok
                (fun prettify (kv : string * res string) =>
                   res_bind (snd kv) (fun s =>
                     Ok (prettify +:+ toBencodeString (fst kv) +:+ s)))
                (range_map range_order (Encode range_order <$> object)))
      with (s := "d") as [s' ->]; [|cbn; eauto].
    intros kv Hkv s. apply range_map_fmap_elem in Hkv as (x & Hx & ->).
    destruct (IHo _ x Hx (Ho _ x Hx)) as [sx ->]. cbn. eauto.
Qed.

Lemma Prettify_total (v : Value) : WellKinded v -> exists s, Prettify range_order v = Ok s.
Proof.
  induction v as [kind string_ number array object IHa IHo] using Value_nested_ind.
  intros Hwk. inversion Hwk as [? ? ? ? ? Hkind Ha Ho]; subst.
  destruct Hkind as [-> | [-> | [-> | ->]]];
    cbn [Prettify Z.eqb Kind_String Kind_Number Kind_Array Kind_Object Pos.eqb]; eauto.
  - destruct (for_range_Ok
                (fun prettify ai =>
                   res_bind (Prettify range_order ai) (fun s => Ok (prettify +:+ s +:+ ",")))
                array) with (s := "[") as [s' ->]; [|cbn; eauto].
    intros x Hx s. rewrite Forall_forall in IHa, Ha.
    destruct (IHa x Hx (Ha x Hx)) as [sx ->]. cbn. eauto.
  - destruct (for_range_Ok
                (fun prettify (kv : string * res string) =>
                   res_bind (snd kv) (fun s =>
                     Ok (prettify +:+ dquote +:+ fst kv +:+ dquote +:+ ": " +:+ s +:+ ",")))
                (range_map range_order (Prettify range_order <$> object)))
      with (s := "{") as [s' ->]; [|cbn; eauto].
    intros kv Hkv s. apply range_map_fmap_elem in Hkv as (x & Hx & ->).
    destruct (IHo _ x Hx (Ho _ x Hx)) as [sx ->]. cbn. eauto.
Qed.

End Total.

(** ** Unsupported host values *)

Lemma for_range_ext {A S : Type} (body body' : S -> A -> res S) (l : list A) (s : S) :
  (forall s x, body s x = body' s x) -> for_range body l s = for_range body' l s.
Proof.
  intros Hext. revert s; induction l as [|x l IH]; intros s; cbn [for_range]; [reflexivity|].
  rewrite Hext. destruct (body' s x); cbn [res_bind]; auto.
Qed.


Section Unsupported.

Variable range_order : forall A : Type, list (string * A) -> list (string * A).
Hypothesis range_order_perm : forall A (l : list (string * A)), range_order A l ≡ₚ l.

Lemma NewArray_HSlice (l : list Host) :
  NewArray range_order (HSlice l) =
  res_bind (for_range (fun newValue v =>
                         res_bind (convert range_order v) (fun x => Ok (newValue ++ [x]))) l [])
           (fun newValue => Ok (ArrayValue newValue)).
Proof.
  cbn [NewArray]. f_equal. apply for_range_ext.
  intros s [n | str | l' | m' |]; reflexivity.
Qed.

Lemma NewObject_HMap (m : gmap string Host) :
  NewObject range_order (HMap m) =
  res_bind (for_range (fun newValue (kv : string * res Value) =>
                         res_bind (snd kv) (fun x => Ok (<[fst kv := x]> newValue)))
                      (range_map range_order (convert range_order <$> m)) ∅)
           (fun newValue => Ok (ObjectValue newValue)).
Proof. reflexivity. Qed.



End Unsupported.

(** ** The qualified round trip

    Whatever the order in which [Encode] ranges over the dictionaries,
    the decoder reads back the value that was written. *)

Lemma insert_all_snoc (value : gmap string Value) (entries : list entry) (e : entry) :
  insert_all value (entries ++ [e]) = <[e_key e := e_value e]> (insert_all value entries).
Proof. unfold insert_all. now rewrite fold_left_app. Qed.

Lemma insert_all_lookup_None (value : gmap string Value) (entries : list entry) (key : string) :
  Forall (fun e => e_key e <> key) entries ->
  insert_all value entries !! key = value !! key.
Proof.
  induction entries as [|e entries IH] using rev_ind; intros H; [reflexivity|].
  apply Forall_app in H as [H He]. rewrite insert_all_snoc.
  rewrite lookup_insert_ne; [now apply IH|]. now inversion He.
Qed.

Lemma insert_all_lookup_Some (value : gmap string Value) (entries : list entry)
      (key : string) (v : Value) :
  Forall (fun e => e_key e = key -> e_value e = v) entries ->
  Exists (fun e => e_key e = key) entries ->
  insert_all value entries !! key = Some v.
Proof.
  induction entries as [|e entries IH] using rev_ind; intros Hall Hex; [inversion Hex|].
  apply Forall_app in Hall as [Hall He]. rewrite insert_all_snoc.
  destruct (decide (e_key e = key)) as [Hk | Hk].
  - inversion He as [|? ? Hv _]; subst. rewrite (Hv eq_refl). apply lookup_insert_eq.
  - rewrite lookup_insert_ne by assumption. apply IH; [assumption|].
    apply Exists_app in Hex as [Hex | Hex]; [assumption|].
    inversion Hex as [? ? Hk' | ? ? Hnil]; [contradiction | inversion Hnil].
Qed.

Section QualifiedRoundTrip.

Variable range_order : forall A : Type, list (string * A) -> list (string * A).
Hypothesis range_order_perm : forall A (l : list (string * A)), range_order A l ≡ₚ l.

Lemma written_and_read_list (a : list Value) :
  Forall (written_and_read range_order) a ->
  exists cs fuel, Forall2 (fun v c => Encode range_order v = Ok c) a cs /\
                  Forall2 (parses_as fuel) cs a.
Proof.
  induction 1 as [|v a (c & fuel & Hc & Hp) _ (cs & fuel' & Henc & Hdec)].
  - exists [], O. split; constructor.
  - exists (c :: cs), (fuel + fuel')%nat. split; constructor; try assumption.
    + apply (parses_as_mono fuel); [lia | assumption].
    + eapply Forall2_impl; [exact Hdec|]. intros c' v' H.
      apply (parses_as_mono fuel'); [lia | assumption].
Qed.

Lemma written_and_read_entries (object : gmap string Value) (l : list (string * res string)) :
  map_Forall (fun key v => len key <= maxInt64 /\ (written_and_read range_order) v) object ->
  Forall (fun kv => exists x, object !! fst kv = Some x /\ snd kv = Encode range_order x) l ->
  exists entries fuel, Forall2 (entry_of object fuel) l entries.
Proof.
  intros Hobj. induction 1 as [|[key r] l (x & Hx & Hr) _ (entries & fuel' & IH)].
  - exists [], O. constructor.
  - cbn [fst snd] in *. destruct (Hobj key x Hx) as (Hlen & c & fuel & Hc & Hp).
    exists (mkEntry key c x :: entries), (fuel + fuel')%nat. constructor.
    + repeat split; cbn [e_key e_text e_value fst snd]; try assumption; [congruence|].
      apply (parses_as_mono fuel); [lia | assumption].
    + eapply Forall2_impl; [exact IH|]. intros kv e (H1 & H2 & H3 & H4 & H5).
      repeat split; try assumption. apply (parses_as_mono fuel'); [lia | assumption].
Qed.

Lemma Encode_object_entries (object : gmap string Value) (fuel : nat)
      (l : list (string * res string)) (entries : list entry) (prettify : string) :
  Forall2 (entry_of object fuel) l entries ->
  for_range (fun prettify (kv : string * res string) =>
               res_bind (snd kv) (fun s => Ok (prettify +:+ toBencodeString (fst kv) +:+ s)))
            l prettify
  = Ok (prettify +:+ dict_text entries).
Proof.
  intros H. revert prettify.
  induction H as [|kv e l entries (Hk & Hr & _) _ IH]; intros prettify; cbn [for_range].
  - unfold dict_text. cbn. now rewrite string_app_nil_r.
  - rewrite Hr. cbn [res_bind]. rewrite IH. unfold dict_text. cbn [map string_concat].
    rewrite Hk, !string_app_assoc. reflexivity.
Qed.

Lemma insert_all_entries (object : gmap string Value) (fuel : nat)
      (l : list (string * res string)) (entries : list entry) :
  Forall2 (entry_of object fuel) l entries ->
  (forall key x, object !! key = Some x -> key ∈ l.*1) ->
  insert_all ∅ entries = object.
Proof.
  intros H Hvisit. apply map_eq. intros key.
  destruct (object !! key) as [x|] eqn:Hx.
  - apply insert_all_lookup_Some.
    + apply Forall_forall. intros e He Hk.
      apply list_elem_of_lookup in He as [i Hi].
      destruct (Forall2_lookup_r _ _ _ _ _ H Hi) as (kv & _ & (_ & _ & Hv & _)).
      rewrite Hk, Hx in Hv. congruence.
    + apply Exists_exists.
      specialize (Hvisit key x Hx). apply list_elem_of_fmap in Hvisit as (kv & -> & Hkv).
      apply list_elem_of_lookup in Hkv as [i Hi].
      destruct (Forall2_lookup_l _ _ _ _ _ H Hi) as (e & He & (Hk & _)).
      exists e. split; [|assumption]. apply list_elem_of_lookup. eauto.
  - rewrite insert_all_lookup_None; [apply lookup_empty|].
    apply Forall_forall. intros e He Hk.
    apply list_elem_of_lookup in He as [i Hi].
    destruct (Forall2_lookup_r _ _ _ _ _ H Hi) as (kv & _ & (_ & _ & Hv & _)).
    rewrite Hk, Hx in Hv. discriminate.
Qed.

Theorem plain_written_and_read (v : Value) : plain v -> (written_and_read range_order) v.
Proof.
  induction v as [kind string_ number array object IHa IHo] using Value_nested_ind.
  intros Hv. inversion Hv as [s Hs | n Hn | a Hne Ha | o Hne Ho]; subst.
  - exists (toBencodeString string_), 1%nat. split; [reflexivity|].
    now apply parses_as_string.
  - exists ("i" +:+ FormatInt number +:+ "e"), 1%nat. split; [reflexivity|].
    now apply parses_as_number.
  - assert (Forall (written_and_read range_order) array) as Hwr.
    { rewrite Forall_forall in IHa, Ha |- *. intros x Hx. apply IHa; auto. }
    destruct (written_and_read_list array Hwr) as (cs & fuel & Henc & Hdec).
    exists ("l" +:+ string_concat cs +:+ "e"), (S (fuel + length array)). split.
    + now apply Encode_array.
    + apply parses_as_array; [|assumption|lia].
      eapply Forall2_impl; [exact Hdec|]. intros c x H.
      apply (parses_as_mono fuel); [lia | assumption].
  - set (l := range_map range_order (Encode range_order <$> object)).
    assert (Forall (fun kv => exists x, object !! fst kv = Some x /\
                                        snd kv = Encode range_order x) l) as Hl.
    { apply Forall_forall. intros kv Hkv.
      now apply (range_map_fmap_elem range_order range_order_perm). }
    destruct (written_and_read_entries object l) as (entries & fuel & Hent); [|exact Hl|].
    { intros key x Hx. destruct (Ho key x Hx) as [Hlen Hp]. split; [assumption|].
      apply (IHo key x Hx Hp). }
    assert (insert_all ∅ entries = object) as Hobj.
    { apply (insert_all_entries object fuel l entries Hent). intros key x Hx.
      apply list_elem_of_fmap. exists (key, Encode range_order x). split; [reflexivity|].
      now apply (range_map_fmap_visits range_order range_order_perm). }
    exists ("d" +:+ dict_text entries +:+ "e"), (S (fuel + length entries)). split.
    + cbn [Encode ObjectValue Z.eqb Kind_String Kind_Number Kind_Array Kind_Object Pos.eqb].
      fold l. rewrite (Encode_object_entries object fuel l entries "d" Hent).
      cbn [res_bind]. now rewrite string_app_assoc.
    + rewrite <- Hobj. apply parses_as_object; [| |lia].
      * eapply Forall_forall. intros e He.
        apply list_elem_of_lookup in He as [i Hi].
        destruct (Forall2_lookup_r _ _ _ _ _ Hent Hi) as (kv & _ & (_ & _ & _ & Hlen & Hp)).
        split; [assumption|]. apply (parses_as_mono fuel); [lia | assumption].
      * intros ->. cbn in Hobj. now apply Hne.
Qed.

End QualifiedRoundTrip.

(** * The properties of the specification *)

Lemma stored_order_perm (A : Type) (l : list (string * A)) : stored_order A l ≡ₚ l.
Proof. reflexivity. Qed.

Lemma complete_value_parses_as (p : string) (v : Value) :
  complete_value p v -> parses_as (S (String.length p)) p v.
Proof.
  intros H t. apply (local_whole (ParseValue (S (String.length p))));
    [apply ParseValue_local | exact H].
Qed.

Lemma parses_as_Decode (fuel : nat) (c t : string) (v : Value) :
  parses_as fuel c v -> Decode (c +:+ t) = Ok v.
Proof. intros H. apply (Decode_Ok fuel _ v (mkContext t)). apply H. Qed.

(** C1 (as the code behaves): [Encode] writes ["le"] for the empty list
    and ["de"] for the empty dictionary, but [Decode] rejects both texts:
    each loop parses an element before it looks for the closing ['e'].
    The specification says that [Decode] accepts them. *)
Theorem empty_containers_not_decoded
  (range_order : forall A : Type, list (string * A) -> list (string * A)) :
  (forall A (l : list (string * A)), range_order A l ≡ₚ l) ->
  Encode range_order (ArrayValue []) = Ok "le" /\
  Encode range_order (ObjectValue ∅) = Ok "de" /\
  Decode "le" = Error (error_character "e") /\
  Decode "de" = Error syntax_error.
Proof.
  intros Hperm. repeat split; try (vm_compute; reflexivity).
  cbn [Encode ObjectValue Z.eqb Kind_String Kind_Number Kind_Array Kind_Object Pos.eqb].
  unfold range_map. rewrite fmap_empty, map_to_list_empty.
  rewrite (proj1 (Permutation_nil_r _) (Hperm _ [])). reflexivity.
Qed.

Lemma empty_containers_not_decoded_witness :
  (forall A (l : list (string * A)), stored_order A l ≡ₚ l) /\
  Encode stored_order (ArrayValue []) = Ok "le" /\
  Encode stored_order (ObjectValue ∅) = Ok "de" /\
  Decode "le" = Error (errors_New "error character: 101") /\
  Decode "de" = Error (errors_New "syntax error").
Proof.
  split; [exact stored_order_perm|].
  exact (empty_containers_not_decoded stored_order stored_order_perm).
Defined.

(** C2: decoding the encoding of a byte string, or of a non-negative
    integer of the 64-bit range, gives the value back. *)
Theorem scalar_roundtrip
  (range_order : forall A : Type, list (string * A) -> list (string * A)) (v : Value) :
  scalar v -> decode_encode range_order v = Ok v.
Proof.
  intros Hv. unfold decode_encode.
  destruct (scalar_encoded range_order v Hv) as (c & -> & Hc). cbn [res_bind].
  rewrite <- (string_app_nil_r c). exact (parses_as_Decode 1 c "" v (Hc O)).
Qed.

Lemma scalar_roundtrip_witness :
  (scalar (NewString "spam") /\
   decode_encode stored_order (NewString "spam") = Ok (NewString "spam")) /\
  (scalar (NewNumber 42) /\
   decode_encode stored_order (NewNumber 42) = Ok (NewNumber 42)).
Proof.
  assert (scalar (NewString "spam")) as Hs by (constructor; vm_compute; discriminate).
  assert (scalar (NewNumber 42)) as Hn by (constructor; vm_compute; split; discriminate).
  split; (split; [assumption|]).
  - exact (scalar_roundtrip stored_order _ Hs).
  - exact (scalar_roundtrip stored_order _ Hn).
Defined.

(** C3 (as the code behaves): the empty list is encoded as ["le"], which
    [Decode] rejects, so the round trip fails for the empty sequence,
    which the specification includes.  (Non-empty sequences:
    [list_roundtrip].) *)
Theorem empty_list_roundtrip_fails
  (range_order : forall A : Type, list (string * A) -> list (string * A)) :
  decode_encode range_order (ArrayValue []) = Error (error_character "e").
Proof. vm_compute. reflexivity. Qed.

(** X1: round trip of every non-empty list of scalars: same elements,
    same order. *)
Theorem list_roundtrip
  (range_order : forall A : Type, list (string * A) -> list (string * A)) (l : list Value) :
  l <> [] -> Forall scalar l ->
  decode_encode range_order (ArrayValue l) = Ok (ArrayValue l).
Proof.
  intros Hne Hl.
  assert (exists cs, Forall2 (fun v c => Encode range_order v = Ok c) l cs /\
                     Forall2 (parses_as 1) cs l) as (cs & Henc & Hdec).
  { clear Hne. induction Hl as [|v l Hv _ (cs & Henc & Hdec)]; [exists []; auto|].
    destruct (scalar_encoded range_order v Hv) as (c & Hc & Hp).
    exists (c :: cs). split; constructor; auto. }
  unfold decode_encode. rewrite (Encode_array range_order l cs Henc). cbn [res_bind].
  rewrite <- (string_app_nil_r ("l" +:+ string_concat cs +:+ "e")).
  apply (parses_as_Decode (S (S (length l)))).
  apply parses_as_array; [|assumption|lia].
  eapply Forall2_impl; [exact Hdec|]. intros c v Hcv.
  apply (parses_as_mono 1); [lia | assumption].
Qed.

Lemma list_roundtrip_witness :
  decode_encode stored_order (ArrayValue [NewNumber 7; NewString "spam"; NewString ""])
  = Ok (ArrayValue [NewNumber 7; NewString "spam"; NewString ""]).
Proof.
  apply list_roundtrip; [discriminate|].
  repeat constructor; vm_compute; discriminate.
Defined.

(** X2: the qualified round trip: decoding the encoding of a plain value
    gives the value back, whatever the order in which the dictionaries
    are ranged over. *)
Theorem qualified_roundtrip
  (range_order : forall A : Type, list (string * A) -> list (string * A)) (v : Value) :
  (forall A (l : list (string * A)), range_order A l ≡ₚ l) ->
  plain v -> decode_encode range_order v = Ok v.
Proof.
  intros Hperm Hv. unfold decode_encode.
  destruct (plain_written_and_read range_order Hperm v Hv) as (c & fuel & -> & Hp).
  cbn [res_bind]. rewrite <- (string_app_nil_r c). now apply (parses_as_Decode fuel).
Qed.

Lemma qualified_roundtrip_witness :
  plain (ObjectValue {["k" := ArrayValue [NewNumber 1; NewString "x"]]}) /\
  decode_encode stored_order (ObjectValue {["k" := ArrayValue [NewNumber 1; NewString "x"]]})
  = Ok (ObjectValue {["k" := ArrayValue [NewNumber 1; NewString "x"]]}).
Proof.
  assert (plain (ObjectValue {["k" := ArrayValue [NewNumber 1; NewString "x"]]})) as H.
  { apply plain_object; [apply insert_non_empty|].
    intros key v Hv. apply lookup_singleton_Some in Hv as [<- <-].
    split; [vm_compute; discriminate|].
    apply plain_array; [discriminate|].
    repeat constructor; vm_compute; discriminate. }
  split; [exact H|].
  exact (qualified_roundtrip stored_order _ stored_order_perm H).
Defined.

(** C4 (as the code behaves): an input that begins with the empty list
    ["le"] or the empty dictionary ["de"], which are complete values of
    the grammar, is rejected whatever follows, because each loop parses
    an element before it looks for the closing ['e'].  The specification
    says that [Decode] succeeds on every input that begins with a
    complete value and ignores the rest, as it does on ["4:spamJUNK"]. *)
Theorem empty_container_prefix_rejected :
  (forall t : string, Decode ("le" +:+ t) = Error (error_character "e")) /\
  (forall t : string, Decode ("de" +:+ t) = Error syntax_error) /\
  Decode "leJUNK" = Error (errors_New "error character: 101") /\
  Decode "4:spamJUNK" = Ok (NewString "spam").
Proof.
  split; [|split; [|split]].
  - intros t. apply (Decode_Error 2). reflexivity.
  - intros t. apply (Decode_Error 2). reflexivity.
  - vm_compute. reflexivity.
  - vm_compute. reflexivity.
Qed.

(** C5: no input that begins with ["i-"] is accepted: [Decode] fails with
    the syntax error, for ["i-<digits>e"] with any digits and so for
    ["i-3e"]. *)
Theorem negative_integer_rejected :
  (forall ds : string, Decode ("i-" +:+ ds +:+ "e") = Error syntax_error) /\
  Decode "i-3e" = Error syntax_error.
Proof.
  split; [|vm_compute; reflexivity].
  intros ds. apply (Decode_Error 1). reflexivity.
Qed.

(** C6: the entries of a dictionary text are inserted in input order, so
    the value kept under a key is that of its last entry; in particular
    ["d1:ai1e1:ai2ee"] decodes to the dictionary that maps ["a"] to 2.
    An entry is a key as [toBencodeString] writes it followed by a text
    that parses as a value. *)
Theorem duplicate_key_last_wins :
  (forall (fuel : nat) (before after : list entry) (e : entry),
      Forall (fun e' => len (e_key e') <= maxInt64 /\
                        parses_as fuel (e_text e') (e_value e'))
             (before ++ e :: after) ->
      Forall (fun e' => e_key e' <> e_key e) after ->
      exists object,
        Decode ("d" +:+ dict_text (before ++ e :: after) +:+ "e") = Ok (ObjectValue object) /\
        object = insert_all ∅ (before ++ e :: after) /\
        object !! e_key e = Some (e_value e)) /\
  Decode "d1:ai1e1:ai2ee" = Ok (ObjectValue {["a" := NewNumber 2]}).
Proof.
  split; [|vm_compute; reflexivity].
  intros fuel before after e Hwf Hlast.
  exists (insert_all ∅ (before ++ e :: after)). repeat split.
  - set (entries := before ++ e :: after) in *.
    rewrite <- (string_app_nil_r ("d" +:+ dict_text entries +:+ "e")).
    apply (parses_as_Decode (S (fuel + length entries))).
    apply parses_as_object; [| subst entries; now destruct before | lia].
    eapply Forall_impl; [exact Hwf|]. intros e' [Hk Hp]. split; [assumption|].
    apply (parses_as_mono fuel); [lia | assumption].
  - now apply insert_all_last.
Qed.

Lemma duplicate_key_last_wins_witness :
  exists object,
    Decode ("d" +:+ dict_text [mkEntry "a" "i1e" (NewNumber 1); mkEntry "b" "1:x" (NewString "x");
                               mkEntry "a" "i2e" (NewNumber 2)] +:+ "e")
    = Ok (ObjectValue object) /\
    object = insert_all ∅ [mkEntry "a" "i1e" (NewNumber 1); mkEntry "b" "1:x" (NewString "x");
                           mkEntry "a" "i2e" (NewNumber 2)] /\
    object !! "a" = Some (NewNumber 2).
Proof.
  apply (proj1 duplicate_key_last_wins 1%nat
           [mkEntry "a" "i1e" (NewNumber 1); mkEntry "b" "1:x" (NewString "x")] []
           (mkEntry "a" "i2e" (NewNumber 2))).
  - constructor; [split; [vm_compute; discriminate|] | constructor;
      [split; [vm_compute; discriminate|] | constructor;
        [split; [vm_compute; discriminate|] | constructor]]]; cbn [e_text e_value].
    + apply (parses_as_number 0 1). vm_compute. split; discriminate.
    + apply (parses_as_string 0 "x"). vm_compute. discriminate.
    + apply (parses_as_number 0 2). vm_compute. split; discriminate.
  - constructor.
Defined.

(** C7: a value cut short is rejected with the syntax error: [Decode]
    returns that error, and no value, on every proper prefix of a
    complete value, so on every list or dictionary whose closing ['e'] is
    missing; in particular on ["l4:spam"]. *)
Theorem unterminated_container_rejected :
  (forall (p q : string) (v : Value),
      q <> "" -> complete_value (p +:+ q) v -> Decode p = Error syntax_error) /\
  Decode "l4:spam" = Error syntax_error.
Proof.
  split; [|vm_compute; reflexivity].
  intros p q v Hq Hc. apply complete_value_parses_as in Hc.
  apply (Decode_Error (S (S (String.length (p +:+ q))))).
  exact (ParseValue_truncates _ _ v Hc p q eq_refl Hq).
Qed.

Lemma unterminated_container_rejected_witness :
  "e" <> "" /\
  complete_value ("d1:kli1ei2ee" +:+ "e")
    (ObjectValue {["k" := ArrayValue [NewNumber 1; NewNumber 2]]}) /\
  Decode "d1:kli1ei2ee" = Error (errors_New "syntax error").
Proof.
  assert (complete_value ("d1:kli1ei2ee" +:+ "e")
            (ObjectValue {["k" := ArrayValue [NewNumber 1; NewNumber 2]]})) as H
    by (vm_compute; reflexivity).
  split; [discriminate|]. split; [exact H|].
  exact (proj1 unterminated_container_rejected "d1:kli1ei2ee" "e" _ ltac:(discriminate) H).
Defined.

(** C8: on every value whose discriminant, and that of every nested
    element, is one of the four variants, [Encode] and [Prettify] return
    a string: they do not fail, and the [panic("impossible")] branch is
    not reached.  This holds for every order in which a map is ranged
    over. *)
Theorem encoder_and_printer_total
  (range_order : forall A : Type, list (string * A) -> list (string * A)) (value : Value) :
  (forall A (l : list (string * A)), range_order A l ≡ₚ l) ->
  WellKinded value ->
  (exists s, Encode range_order value = Ok s) /\
  (exists s, Prettify range_order value = Ok s) /\
  Encode range_order value <> Panic "impossible" /\
  Prettify range_order value <> Panic "impossible".
Proof.
  intros Hperm Hwk.
  destruct (Encode_total range_order Hperm value Hwk) as [s Hs].
  destruct (Prettify_total range_order Hperm value Hwk) as [s' Hs'].
  rewrite Hs, Hs'. repeat split; eauto; discriminate.
Qed.

Lemma encoder_and_printer_total_witness :
  (exists s, Encode stored_order
               (ObjectValue {["k" := ArrayValue [NewNumber (-1); NewString "x"]]}) = Ok s) /\
  (exists s, Prettify stored_order
               (ObjectValue {["k" := ArrayValue [NewNumber (-1); NewString "x"]]}) = Ok s) /\
  Encode stored_order (ObjectValue {["k" := ArrayValue [NewNumber (-1); NewString "x"]]})
    <> Panic "impossible" /\
  Prettify stored_order (ObjectValue {["k" := ArrayValue [NewNumber (-1); NewString "x"]]})
    <> Panic "impossible".
Proof.
  apply (encoder_and_printer_total stored_order _ stored_order_perm).
  constructor; [auto | constructor |].
  intros k v Hv. apply lookup_singleton_Some in Hv as [_ <-].
  constructor; [auto | | intros ? ? H; rewrite lookup_empty in H; discriminate].
  repeat constructor; auto; intros ? ? H; rewrite lookup_empty in H; discriminate.
Defined.

(** Outside the four variants the encoder does panic. *)
Example Encode_unknown_kind :
  Encode stored_order (mkValue 4 "" 0 [] ∅) = Panic "impossible".
Proof. reflexivity. Qed.



(** The argument itself must be a sequence (resp. a mapping): the type
    assertion panics otherwise. *)
Example NewArray_not_a_slice :
  NewArray stored_order (HMap ∅) = Panic "interface conversion" /\
  NewObject stored_order (HInt 1) = Panic "interface conversion".
Proof. split; reflexivity. Qed.

(** C10: [Decode] returns, with a value or with an error, on every input.
    Every successful [ParseValue] (and every successful [GetString])
    leaves a strictly shorter cursor, so each round of the two loops
    shortens the input; consequently one unit of fuel per input byte,
    plus one, is never used up, and more fuel changes nothing. *)
Theorem Decode_terminates :
  (forall s : string, (exists v, Decode s = Ok v) \/ (exists e, Decode s = Error e)) /\
  (forall (fuel : nat) (s : string) (v : Value) (ctx' : Context),
      ParseValue fuel (mkContext s) = Ok (v, ctx') ->
      (String.length (b ctx') < String.length s)%nat) /\
  (forall (s key : string) (ctx' : Context),
      GetString (mkContext s) = Ok (key, ctx') ->
      (String.length (b ctx') < String.length s)%nat) /\
  (forall (fuel : nat) (s : string),
      (String.length s < fuel)%nat ->
      returns (ParseValue fuel (mkContext s)) /\
      ParseValue fuel (mkContext s) = ParseValue (S (String.length s)) (mkContext s)).
Proof.
  repeat split.
  - intros s. unfold Decode.
    pose proof (ParseValue_fuel_enough (S (String.length s)) s ltac:(lia)) as Hr.
    destruct (ParseValue (S (String.length s)) (mkContext s)) as [[v ctx']| e | |];
      cbn in *; try contradiction; eauto.
  - apply ParseValue_consumes.
  - intros s key ctx'. apply (local_consumes GetString). apply GetString_local.
  - now apply ParseValue_fuel_enough.
  - apply ParseValue_fuel_mono; [lia|]. apply ParseValue_fuel_enough. lia.
Qed.

Lemma Decode_terminates_witness :
  (String.length "ll4:spam" < 20)%nat /\
  returns (ParseValue 20 (mkContext "ll4:spam")) /\
  ParseValue 20 (mkContext "ll4:spam") = ParseValue 9 (mkContext "ll4:spam").
Proof.
  assert (String.length "ll4:spam" < 20)%nat as H by (vm_compute; lia).
  split; [exact H|].
  exact (proj2 (proj2 (proj2 Decode_terminates)) 20%nat "ll4:spam" H).
Defined.

(** * Further properties of the code *)

(** ** What the decoder returns *)

Lemma Decode_Ok_inv (s : string) (v : Value) :
  Decode s = Ok v ->
  exists ctx', ParseValue (S (String.length s)) (mkContext s) = Ok (v, ctx').
Proof.
  unfold Decode. destruct (ParseValue _ _) as [[v' ctx']| | |]; cbn; try discriminate.
  intros H. injection H as <-. eauto.
Qed.

Lemma Decode_Error_inv (s : string) (e : error) :
  Decode s = Error e -> ParseValue (S (String.length s)) (mkContext s) = Error e.
Proof.
  unfold Decode. destruct (ParseValue _ _) as [[v' ctx']| | |]; cbn; congruence.
Qed.

Lemma remove_then_inv {A} (x : ascii) (m : M A) (s : string) (r : A * Context) :
  (or_syntax_error (RemoveACharacter x) ;; m) (mkContext s) = Ok r ->
  exists s', s = String x s' /\ m (mkContext s') = Ok r.
Proof.
  destruct s as [|y s]; [discriminate|]. unfold_M.
  destruct (byte_eqb y x) eqn:Hy; [|discriminate].
  apply byte_eqb_eq in Hy; subst y. cbn [fst snd]. eauto.
Qed.

Lemma remove_then_error {A} (x : ascii) (m : M A) (s : string) (e : error) :
  (or_syntax_error (RemoveACharacter x) ;; m) (mkContext s) = Error e ->
  e = syntax_error \/ exists s', m (mkContext s') = Error e.
Proof.
  destruct s as [|y s]; unfold_M; [intros H; injection H as <-; now left|].
  destruct (byte_eqb y x); cbn [fst snd]; [eauto|].
  intros H; injection H as <-; now left.
Qed.

Section DecodedLoops.

Variable pv : M Value.
Hypothesis pv_plain : forall ctx v ctx', pv ctx = Ok (v, ctx') -> plain v.

Lemma ParseArray_loop_plain (n : nat) (value : list Value) (ctx : Context)
      (v : Value) (ctx' : Context) :
  Forall plain value ->
  ParseArray_loop pv n value ctx = Ok (v, ctx') ->
  plain v /\ Value_Kind v = Kind_Array.
Proof.
  revert value ctx; induction n as [|n IH]; intros value ctx Hacc H; [discriminate|].
  rewrite ParseArray_loop_step in H.
  destruct (pv ctx) as [[ele [s1]]| | |] eqn:Hele; try discriminate.
  cbn [res_bind fst snd] in H.
  assert (Forall plain (value ++ [ele])) as Hacc'.
  { apply Forall_app. split; [assumption|]. constructor; [|constructor].
    now apply (pv_plain _ _ _ Hele). }
  assert (plain (mkValue Kind_Array "" 0 (value ++ [ele]) ∅)) as Hdone.
  { apply (plain_array (value ++ [ele])); [|assumption]. now destruct value. }
  destruct s1 as [|x s1].
  - rewrite attempt_e_nil in H. now apply (IH _ _ Hacc' H).
  - rewrite attempt_e_cons in H. destruct (byte_eqb x "e").
    + injection H as <- _. split; [assumption | reflexivity].
    + now apply (IH _ _ Hacc' H).
Qed.

Lemma ParseObject_loop_plain (n : nat) (value : gmap string Value) (ctx : Context)
      (v : Value) (ctx' : Context) :
  map_Forall (fun key x => len key <= maxInt64 /\ plain x) value ->
  ParseObject_loop pv n value ctx = Ok (v, ctx') ->
  plain v /\ Value_Kind v = Kind_Object.
Proof.
  revert value ctx; induction n as [|n IH]; intros value [s] Hacc H; [discriminate|].
  rewrite ParseObject_loop_step in H.
  destruct (GetString (mkContext s)) as [[key ctx0]| | |] eqn:Hkey; try discriminate.
  cbn [res_bind fst snd] in H.
  destruct (pv ctx0) as [[ele [s1]]| | |] eqn:Hele; try discriminate.
  cbn [res_bind fst snd] in H.
  assert (map_Forall (fun key x => len key <= maxInt64 /\ plain x) (<[key := ele]> value))
    as Hacc'.
  { apply map_Forall_insert_2; [|assumption]. split; [|now apply (pv_plain _ _ _ Hele)].
    destruct (GetString_inv _ _ _ Hkey) as (ds & _ & Hds & Hlen).
    destruct (ParseInt_digits_inv _ _ Hds Hlen) as (_ & _ & Hrange). lia. }
  assert (plain (mkValue Kind_Object "" 0 [] (<[key := ele]> value))) as Hdone.
  { apply (plain_object (<[key := ele]> value)); [apply insert_non_empty | assumption]. }
  destruct s1 as [|x s1].
  - rewrite attempt_e_nil in H. now apply (IH _ _ Hacc' H).
  - rewrite attempt_e_cons in H. destruct (byte_eqb x "e").
    + injection H as <- _. split; [assumption | reflexivity].
    + now apply (IH _ _ Hacc' H).
Qed.

End DecodedLoops.

(** Every value the parser returns is plain, and its variant is the one
    its first byte selects. *)
Lemma ParseValue_plain_kind (fuel : nat) (s : string) (v : Value) (ctx' : Context) :
  ParseValue fuel (mkContext s) = Ok (v, ctx') ->
  plain v /\
  exists c s', s = String c s' /\ dispatch_byte c = true /\
               Value_Kind v = kind_of_first_byte c.
Proof.
  revert s v ctx'; induction fuel as [|fuel IH]; intros s v ctx' H; [discriminate|].
  destruct s as [|c s]; [discriminate|].
  rewrite ParseValue_cons in H.
  assert (forall ctx v ctx', ParseValue fuel ctx = Ok (v, ctx') -> plain v) as Hpv.
  { intros [s0] v0 ctx0 H0. now apply (IH _ _ _ H0). }
  enough (plain v /\ dispatch_byte c = true /\ Value_Kind v = kind_of_first_byte c)
    as (? & ? & ?) by (split; [assumption|]; exists c, s; auto).
  revert H. unfold dispatch, dispatch_byte, kind_of_first_byte.
  destruct (isDigit c).
  { intros H. destruct (ParseString_inv _ _ _ H) as (ds & str & _ & -> & Hds & Hlen).
    destruct (ParseInt_digits_inv _ _ Hds Hlen) as (_ & _ & Hrange).
    repeat split. apply plain_string. lia. }
  destruct (byte_eqb c "i").
  { intros H. destruct (ParseNumber_inv _ _ _ H) as (ds & n & _ & -> & Hds & Hn).
    destruct (ParseInt_digits_inv _ _ Hds Hn) as (_ & _ & Hrange).
    repeat split. now apply plain_number. }
  destruct (byte_eqb c "l").
  { intros H. apply remove_then_inv in H as (s' & _ & H).
    destruct (ParseArray_loop_plain _ Hpv _ _ _ _ _ (List.Forall_nil _) H). auto. }
  destruct (byte_eqb c "d").
  { intros H. apply remove_then_inv in H as (s' & _ & H).
    destruct (ParseObject_loop_plain _ Hpv _ _ _ _ _ (map_Forall_empty _) H). auto. }
  discriminate.
Qed.

(** X3: [Decode] returns only plain values: byte strings, integers
    between 0 and [maxInt64], and non-empty lists and dictionaries of
    plain values, with the other fields at their zero values. *)
Theorem Decode_returns_plain (s : string) (v : Value) :
  Decode s = Ok v -> plain v.
Proof.
  intros H. apply Decode_Ok_inv in H as [ctx' H].
  now apply (ParseValue_plain_kind _ _ _ _ H).
Qed.

Lemma Decode_returns_plain_witness :
  Decode "d1:kli1e1:xee" = Ok (ObjectValue {["k" := ArrayValue [NewNumber 1; NewString "x"]]}) /\
  plain (ObjectValue {["k" := ArrayValue [NewNumber 1; NewString "x"]]}).
Proof.
  assert (Decode "d1:kli1e1:xee"
          = Ok (ObjectValue {["k" := ArrayValue [NewNumber 1; NewString "x"]]})) as H
    by (vm_compute; reflexivity).
  split; [exact H|]. exact (Decode_returns_plain _ _ H).
Defined.

(** X4: a decoded value can be encoded again, and decoding that text
    gives the same value, whatever the order in which the dictionaries
    are ranged over. *)
Theorem decoded_value_reencodes
  (range_order : forall A : Type, list (string * A) -> list (string * A))
  (s : string) (v : Value) :
  (forall A (l : list (string * A)), range_order A l ≡ₚ l) ->
  Decode s = Ok v ->
  exists c, Encode range_order v = Ok c /\ Decode c = Ok v.
Proof.
  intros Hperm H. apply Decode_Ok_inv in H as [ctx' H].
  destruct (ParseValue_plain_kind _ _ _ _ H) as [Hv _].
  destruct (plain_written_and_read range_order Hperm v Hv) as (c & fuel & Hc & Hp).
  exists c. split; [assumption|].
  rewrite <- (string_app_nil_r c). now apply (parses_as_Decode fuel).
Qed.

Lemma decoded_value_reencodes_witness :
  Decode "d01:ai1e1:ai2eeJUNK" = Ok (ObjectValue {["a" := NewNumber 2]}) /\
  exists c, Encode stored_order (ObjectValue {["a" := NewNumber 2]}) = Ok c /\
            Decode c = Ok (ObjectValue {["a" := NewNumber 2]}).
Proof.
  assert (Decode "d01:ai1e1:ai2eeJUNK" = Ok (ObjectValue {["a" := NewNumber 2]})) as H
    by (vm_compute; reflexivity).
  split; [exact H|].
  exact (decoded_value_reencodes stored_order _ _ stored_order_perm H).
Defined.

(** X5: the encoding is self-delimiting and injective on plain values:
    if the encoding of one is a prefix of the encoding of another (with
    any two iteration orders), the two texts and the two values are
    equal. *)
Theorem Encode_prefix_free
  (range_order range_order' : forall A : Type, list (string * A) -> list (string * A))
  (v1 v2 : Value) (c q : string) :
  (forall A (l : list (string * A)), range_order A l ≡ₚ l) ->
  (forall A (l : list (string * A)), range_order' A l ≡ₚ l) ->
  plain v1 -> plain v2 ->
  Encode range_order v1 = Ok c -> Encode range_order' v2 = Ok (c +:+ q) ->
  q = "" /\ v1 = v2.
Proof.
  intros Hperm Hperm' Hv1 Hv2 Hc1 Hc2.
  destruct (plain_written_and_read range_order Hperm v1 Hv1) as (c1 & f1 & Hc1' & Hp1).
  destruct (plain_written_and_read range_order' Hperm' v2 Hv2) as (c2 & f2 & Hc2' & Hp2).
  assert (c1 = c) as -> by congruence. assert (c2 = c +:+ q) as -> by congruence.
  apply (parses_as_mono f1 (f1 + f2)) in Hp1; [|lia].
  apply (parses_as_mono f2 (f1 + f2)) in Hp2; [|lia].
  specialize (Hp1 q). specialize (Hp2 ""). rewrite string_app_nil_r in Hp2.
  rewrite Hp1 in Hp2. injection Hp2 as -> ->. auto.
Qed.

Lemma Encode_prefix_free_witness :
  Encode stored_order (ArrayValue [NewString "ab"; NewNumber 3]) = Ok "l2:abi3ee" /\
  ("" = "" /\ ArrayValue [NewString "ab"; NewNumber 3] = ArrayValue [NewString "ab"; NewNumber 3]).
Proof.
  assert (plain (ArrayValue [NewString "ab"; NewNumber 3])) as Hv.
  { apply plain_array; [discriminate|]. repeat constructor; vm_compute; discriminate. }
  assert (Encode stored_order (ArrayValue [NewString "ab"; NewNumber 3]) = Ok "l2:abi3ee") as Hc
    by (vm_compute; reflexivity).
  split; [exact Hc|].
  exact (Encode_prefix_free stored_order stored_order _ _ "l2:abi3ee" ""
           stored_order_perm stored_order_perm Hv Hv Hc Hc).
Defined.

(** X6: the first byte of the input selects the variant of the value
    that [Decode] returns: a digit gives a byte string, ['i'] a number,
    ['l'] an array and ['d'] an object; an input that [Decode] accepts
    starts with one of these bytes. *)
Theorem first_byte_selects_variant (s : string) (v : Value) :
  Decode s = Ok v ->
  exists c s', s = String c s' /\ dispatch_byte c = true /\
               Value_Kind v = kind_of_first_byte c.
Proof.
  intros H. apply Decode_Ok_inv in H as [ctx' H].
  now apply (ParseValue_plain_kind _ _ _ _ H).
Qed.

Lemma first_byte_selects_variant_witness :
  Decode "li1ee" = Ok (ArrayValue [NewNumber 1]) /\
  exists c s', "li1ee" = String c s' /\ dispatch_byte c = true /\
               Value_Kind (ArrayValue [NewNumber 1]) = kind_of_first_byte c.
Proof.
  assert (Decode "li1ee" = Ok (ArrayValue [NewNumber 1])) as H by (vm_compute; reflexivity).
  split; [exact H|]. exact (first_byte_selects_variant _ _ H).
Defined.

(** ** The errors of the decoder *)

Section ErrorLoops.

Variable pv : M Value.
Hypothesis pv_errors : forall ctx e, pv ctx = Error e -> decode_error e.

Lemma ParseArray_loop_errors (n : nat) (value : list Value) (ctx : Context) (e : error) :
  ParseArray_loop pv n value ctx = Error e -> decode_error e.
Proof.
  revert value ctx; induction n as [|n IH]; intros value ctx H; [discriminate|].
  rewrite ParseArray_loop_step in H.
  destruct (pv ctx) as [[ele [s1]]| e' | |] eqn:Hele; try discriminate.
  - cbn [res_bind fst snd] in H. destruct s1 as [|x s1].
    + rewrite attempt_e_nil in H. now apply (IH _ _ H).
    + rewrite attempt_e_cons in H. destruct (byte_eqb x "e"); [discriminate|].
      now apply (IH _ _ H).
  - injection H as <-. now apply (pv_errors ctx).
Qed.

Lemma ParseObject_loop_errors (n : nat) (value : gmap string Value) (ctx : Context) (e : error) :
  ParseObject_loop pv n value ctx = Error e -> decode_error e.
Proof.
  revert value ctx; induction n as [|n IH]; intros value ctx H; [discriminate|].
  rewrite ParseObject_loop_step in H.
  destruct (GetString_only_syntax_errors ctx) as [[[key ctx0] Hkey] | Hkey]; rewrite Hkey in H;
    [|injection H as <-; now left].
  cbn [res_bind fst snd] in H.
  destruct (pv ctx0) as [[ele [s1]]| e' | |] eqn:Hele; try discriminate.
  - cbn [res_bind fst snd] in H. destruct s1 as [|x s1].
    + rewrite attempt_e_nil in H. now apply (IH _ _ H).
    + rewrite attempt_e_cons in H. destruct (byte_eqb x "e"); [discriminate|].
      now apply (IH _ _ H).
  - injection H as <-. now apply (pv_errors ctx0).
Qed.

End ErrorLoops.

Lemma ParseValue_errors (fuel : nat) (ctx : Context) (e : error) :
  ParseValue fuel ctx = Error e -> decode_error e.
Proof.
  revert ctx e; induction fuel as [|fuel IH]; intros [s] e H; [discriminate|].
  destruct s as [|c s]; [injection H as <-; now left|].
  rewrite ParseValue_cons in H. revert H. unfold dispatch.
  destruct (isDigit c) eqn:Hd.
  { intros H. destruct (ParseString_only_syntax_errors (mkContext (String c s)))
      as [[r Hr] | Hr]; rewrite Hr in H; [discriminate | injection H as <-; now left]. }
  destruct (byte_eqb c "i") eqn:Hi.
  { intros H. destruct (ParseNumber_only_syntax_errors (mkContext (String c s)))
      as [[r Hr] | Hr]; rewrite Hr in H; [discriminate | injection H as <-; now left]. }
  destruct (byte_eqb c "l") eqn:Hl.
  { intros H. apply remove_then_error in H as [-> | [s' H]]; [now left|].
    now apply (ParseArray_loop_errors _ IH _ _ _ _ H). }
  destruct (byte_eqb c "d") eqn:Ho.
  { intros H. apply remove_then_error in H as [-> | [s' H]]; [now left|].
    now apply (ParseObject_loop_errors _ IH _ _ _ _ H). }
  intros H. injection H as <-. right. exists c. split; [reflexivity|].
  unfold dispatch_byte. now rewrite Hd, Hi, Hl, Ho.
Qed.

(** X7: [Decode] fails in two ways only: with the error "syntax error",
    or with "error character: <n>" where [n] is a byte that is neither a
    digit nor ['i'], ['l'] or ['d']. *)
Theorem Decode_error_forms (s : string) (e : error) :
  Decode s = Error e ->
  e = errors_New "syntax error" \/
  exists c, e = errors_New ("error character: " +:+ FormatInt (byte_val c)) /\
            dispatch_byte c = false.
Proof. intros H. apply Decode_Error_inv in H. exact (ParseValue_errors _ _ _ H). Qed.

Lemma Decode_error_forms_witness :
  Decode "li1ex" = Error (errors_New "error character: 120") /\
  (errors_New "error character: 120" = errors_New "syntax error" \/
   exists c, errors_New "error character: 120"
             = errors_New ("error character: " +:+ FormatInt (byte_val c)) /\
             dispatch_byte c = false).
Proof.
  assert (Decode "li1ex" = Error (errors_New "error character: 120")) as H
    by (vm_compute; reflexivity).
  split; [exact H|]. exact (Decode_error_forms _ _ H).
Defined.

(** ** Numbers at the edges of the grammar *)

Lemma ParseInt_overflow (ds : string) :
  all_digits ds = true -> maxInt64 < digits_val 0 ds -> exists e, ParseInt ds = inl e.
Proof.
  intros Hds Hbig. destruct (ParseInt ds) as [e|n] eqn:Hp; [eauto|].
  destruct (ParseInt_digits_inv _ _ Hds Hp) as (_ & -> & Hrange). lia.
Qed.

(** X8: a digit run that denotes more than [maxInt64] is rejected with
    the syntax error, as an integer and as the length of a byte string,
    whatever follows it. *)
Theorem number_overflow_rejected (ds t : string) :
  all_digits ds = true -> maxInt64 < digits_val 0 ds ->
  Decode ("i" +:+ ds +:+ "e" +:+ t) = Error syntax_error /\
  Decode (ds +:+ ":" +:+ t) = Error syntax_error.
Proof.
  intros Hds Hbig. destruct (ParseInt_overflow ds Hds Hbig) as [e He]. split.
  - apply (Decode_Error 1). cbn [String.append]. rewrite ParseValue_cons.
    change (dispatch 0 "i") with ParseNumber. unfold ParseNumber. unfold_M.
    cbn [byte_eqb Ascii.eqb Bool.eqb]. cbn [b fst snd].
    rewrite scan_digits_app by (assumption || reflexivity).
    rewrite slice_to_app, He. reflexivity.
  - destruct ds as [|x ds]; [unfold maxInt64 in Hbig; simpl in Hbig; lia|].
    apply (Decode_Error 1). cbn [String.append]. rewrite ParseValue_cons. unfold dispatch.
    pose proof Hds as Hx. simpl in Hx. apply andb_true_iff in Hx as [-> _].
    unfold ParseString, bind, GetString. unfold_M.
    change (String x (ds +:+ String ":" t)) with (String x ds +:+ String ":" t).
    rewrite scan_digits_app by (assumption || reflexivity).
    rewrite slice_to_app, He. reflexivity.
Qed.

Lemma number_overflow_rejected_witness :
  maxInt64 < digits_val 0 "9223372036854775808" /\
  Decode ("i" +:+ "9223372036854775808" +:+ "e" +:+ "") = Error (errors_New "syntax error") /\
  Decode ("9223372036854775808" +:+ ":" +:+ "") = Error (errors_New "syntax error").
Proof.
  assert (maxInt64 < digits_val 0 "9223372036854775808") as H by (vm_compute; reflexivity).
  split; [exact H|].
  exact (number_overflow_rejected "9223372036854775808" "" ltac:(vm_compute; reflexivity) H).
Defined.

Lemma isDigit_not_sign (c : ascii) :
  isDigit c = true -> byte_eqb c "+" = false /\ byte_eqb c "-" = false.
Proof.
  intros Hc. apply (all_digits_head c ""). simpl. now rewrite Hc.
Qed.

Lemma ParseInt_leading_zero (c : ascii) (ds : string) :
  isDigit c = true -> ParseInt (String "0" (String c ds)) = ParseInt (String c ds).
Proof.
  intros Hc. unfold ParseInt at 2. destruct (isDigit_not_sign c Hc) as [-> ->].
  reflexivity.
Qed.

Lemma GetString_leading_zero (c : ascii) (s : string) :
  isDigit c = true ->
  GetString (mkContext (String "0" (String c s))) = GetString (mkContext (String c s)).
Proof.
  intros Hc. unfold GetString. unfold_M.
  change (scan_digits (String "0" (String c s))) with (S (scan_digits (String c s))).
  cbn [scan_digits]. rewrite Hc. cbn [slice_to slice_from].
  rewrite ParseInt_leading_zero by assumption.
  destruct (ParseInt (String c (slice_to (scan_digits s) s))); reflexivity.
Qed.

Lemma ParseNumber_leading_zero (c : ascii) (s : string) :
  isDigit c = true ->
  ParseNumber (mkContext (String "i" (String "0" (String c s))))
  = ParseNumber (mkContext (String "i" (String c s))).
Proof.
  intros Hc. unfold ParseNumber. unfold_M.
  cbn [byte_eqb Ascii.eqb Bool.eqb]. cbn [b fst snd].
  change (scan_digits (String "0" (String c s))) with (S (scan_digits (String c s))).
  cbn [scan_digits]. rewrite Hc. cbn [slice_to slice_from].
  rewrite ParseInt_leading_zero by assumption.
  destruct (ParseInt (String c (slice_to (scan_digits s) s))); reflexivity.
Qed.

(** X9: leading zeros are accepted: a zero in front of the digits of a
    string length, or of an integer, changes nothing in what [Decode]
    returns. *)
Theorem leading_zero_accepted (c : ascii) (s : string) :
  isDigit c = true ->
  Decode (String "0" (String c s)) = Decode (String c s) /\
  Decode ("i0" +:+ String c s) = Decode ("i" +:+ String c s).
Proof.
  intros Hc. split; unfold Decode; f_equal; cbn [String.append];
    rewrite !ParseValue_cons; unfold dispatch.
  - rewrite Hc. change (isDigit "0") with true. cbv iota.
    unfold ParseString, bind. now rewrite GetString_leading_zero.
  - change (isDigit "i") with false. change (byte_eqb "i" "i") with true. cbv iota.
    now apply ParseNumber_leading_zero.
Qed.

Lemma leading_zero_accepted_witness :
  isDigit "4" = true /\
  Decode "042e" = Decode "42e" /\ Decode ("i0" +:+ "42e") = Decode ("i" +:+ "42e").
Proof.
  split; [reflexivity|].
  exact (leading_zero_accepted "4" "2e" eq_refl).
Defined.

(** X10: [Encode] writes a negative number with its sign, and [Decode]
    rejects that text with the syntax error: no negative number makes the
    round trip. *)
Theorem negative_number_not_decoded
  (range_order : forall A : Type, list (string * A) -> list (string * A)) (n : Z) :
  n < 0 ->
  Encode range_order (NewNumber n) = Ok ("i-" +:+ FormatUint (- n) +:+ "e") /\
  decode_encode range_order (NewNumber n) = Error syntax_error.
Proof.
  intros Hn.
  assert (Encode range_order (NewNumber n) = Ok ("i-" +:+ FormatUint (- n) +:+ "e")) as HE.
  { cbn [Encode NewNumber Z.eqb Kind_String Kind_Number Pos.eqb]. unfold FormatInt.
    rewrite (proj2 (Z.ltb_lt n 0) Hn). reflexivity. }
  split; [exact HE|]. unfold decode_encode. rewrite HE. cbn [res_bind].
  apply (Decode_Error 1). reflexivity.
Qed.

Lemma negative_number_not_decoded_witness :
  -3 < 0 /\
  Encode stored_order (NewNumber (-3)) = Ok "i-3e" /\
  decode_encode stored_order (NewNumber (-3)) = Error (errors_New "syntax error").
Proof.
  split; [reflexivity|].
  exact (negative_number_not_decoded stored_order (-3) eq_refl).
Defined.

(** ** What the construction helpers build *)

Section HelpersShape.

Variable range_order : forall A : Type, list (string * A) -> list (string * A).
Hypothesis range_order_perm : forall A (l : list (string * A)), range_order A l ≡ₚ l.

Lemma for_range_appends (l : list Host) (newValue : list Value) :
  (forall x, x ∈ l -> convert range_order x = Ok (to_value x)) ->
  for_range (fun newValue v =>
               res_bind (convert range_order v) (fun x => Ok (newValue ++ [x]))) l newValue
  = Ok (newValue ++ map to_value l).
Proof.
  revert newValue; induction l as [|x l IH]; intros newValue Hl; cbn [for_range map].
  - now rewrite app_nil_r.
  - rewrite (Hl x) by left. cbn [res_bind]. rewrite IH.
    + now rewrite <- app_assoc.
    + intros y Hy. apply Hl. now right.
Qed.

Lemma for_range_inserts (m : gmap string Host) (l : list (string * res Value))
      (newValue : gmap string Value) :
  (forall kv, kv ∈ l -> exists x, m !! fst kv = Some x /\ snd kv = Ok (to_value x)) ->
  exists object,
    for_range (fun newValue (kv : string * res Value) =>
                 res_bind (snd kv) (fun x => Ok (<[fst kv := x]> newValue))) l newValue
    = Ok object /\
    forall key, object !! key =
                if decide (key ∈ l.*1) then to_value <$> (m !! key) else newValue !! key.
Proof.
  revert newValue; induction l as [|[k r] l IH]; intros newValue Hl; cbn [for_range].
  - exists newValue. split; [reflexivity|]. intros key.
    destruct (decide (key ∈ ([] : list (string * res Value)).*1)) as [Hin|]; [inversion Hin | reflexivity].
  - destruct (Hl (k, r) ltac:(left)) as (x & Hx & Hr). cbn [fst snd] in *. subst r.
    cbn [res_bind].
    destruct (IH (<[k := to_value x]> newValue)) as (object & -> & Hobj).
    { intros kv Hkv. apply Hl. now right. }
    exists object. split; [reflexivity|]. intros key. rewrite Hobj.
    cbn [fmap list_fmap fst].
    destruct (decide (key ∈ l.*1)) as [Hin | Hnin].
    + rewrite decide_True by now right. reflexivity.
    + destruct (decide (key = k)) as [-> | Hne].
      * rewrite decide_True by left. rewrite lookup_insert_eq, Hx. reflexivity.
      * rewrite lookup_insert_ne by congruence.
        rewrite decide_False; [reflexivity|].
        intros Hin. apply elem_of_cons in Hin as [? | ?]; contradiction.
Qed.

Lemma convert_supported (h : Host) :
  supported h -> convert range_order h = Ok (to_value h).
Proof.
  induction h as [n | s | | l IH | m IH] using Host_nested_ind; intros Hs.
  - reflexivity.
  - reflexivity.
  - inversion Hs.
  - inversion Hs as [| | l' Hl |]; subst. cbn [convert]. rewrite NewArray_HSlice.
    rewrite for_range_appends; [reflexivity|].
    rewrite Forall_forall in IH, Hl. intros x Hx. apply IH; auto.
  - inversion Hs as [| | | m' Hm]; subst. cbn [convert]. rewrite NewObject_HMap.
    destruct (for_range_inserts m (range_map range_order (convert range_order <$> m)) ∅)
      as (object & -> & Hobj).
    { intros kv Hkv.
      apply (range_map_fmap_elem range_order range_order_perm) in Hkv as (x & Hx & ->).
      exists x. split; [assumption|]. apply (IH _ x Hx). apply (Hm _ x Hx). }
    cbn [res_bind to_value]. do 2 f_equal. apply map_eq. intros key.
    rewrite Hobj, lookup_fmap.
    destruct (decide (key ∈ (range_map range_order (convert range_order <$> m)).*1))
      as [Hin | Hnin]; [reflexivity|].
    destruct (m !! key) as [x|] eqn:Hx; [|reflexivity].
    exfalso. apply Hnin. apply list_elem_of_fmap.
    exists (key, convert range_order x). split; [reflexivity|].
    now apply (range_map_fmap_visits range_order range_order_perm).
Qed.

Lemma to_value_WellKinded (h : Host) : WellKinded (to_value h).
Proof.
  induction h as [n | s | | l IH | m IH] using Host_nested_ind; cbn [to_value].
  - constructor; [auto | constructor | apply map_Forall_empty].
  - constructor; [auto | constructor | apply map_Forall_empty].
  - constructor; [auto | constructor | apply map_Forall_empty].
  - constructor; [auto | | apply map_Forall_empty].
    apply Forall_forall. intros v Hv. apply list_elem_of_fmap in Hv as (x & -> & Hx).
    rewrite Forall_forall in IH. now apply IH.
  - constructor; [auto | constructor |].
    intros key v Hv. rewrite lookup_fmap in Hv.
    destruct (m !! key) as [x|] eqn:Hx; [|discriminate].
    injection Hv as <-. apply (IH _ x Hx).
Qed.

End HelpersShape.

(** X11: on a literal that holds supported values only, [NewArray] and
    [NewObject] return the value of the same shape (ints as numbers,
    strings as byte strings, sequences as arrays in the same order,
    mappings as objects with the same keys), whatever the order in which
    a map is ranged over. *)
Theorem helpers_build_shape
  (range_order : forall A : Type, list (string * A) -> list (string * A)) :
  (forall A (l : list (string * A)), range_order A l ≡ₚ l) ->
  (forall l : list Host,
      supported (HSlice l) -> NewArray range_order (HSlice l) = Ok (to_value (HSlice l))) /\
  (forall m : gmap string Host,
      supported (HMap m) -> NewObject range_order (HMap m) = Ok (to_value (HMap m))).
Proof.
  intros Hperm. split.
  - intros l Hl. exact (convert_supported range_order Hperm (HSlice l) Hl).
  - intros m Hm. exact (convert_supported range_order Hperm (HMap m) Hm).
Qed.

Lemma helpers_build_shape_witness :
  supported (HMap {["k" := HSlice [HInt (-1); HString "x"; HSlice []]]}) /\
  NewObject stored_order (HMap {["k" := HSlice [HInt (-1); HString "x"; HSlice []]]})
  = Ok (ObjectValue {["k" := ArrayValue [NewNumber (-1); NewString "x"; ArrayValue []]]}).
Proof.
  assert (supported (HMap {["k" := HSlice [HInt (-1); HString "x"; HSlice []]]})) as H.
  { apply supported_map. intros key x Hx. apply lookup_singleton_Some in Hx as [_ <-].
    repeat constructor. }
  split; [exact H|].
  exact (proj2 (helpers_build_shape stored_order stored_order_perm) _ H).
Defined.

(** X12: every value that [NewArray] or [NewObject] returns can be
    encoded and pretty-printed: [Encode] and [Prettify] return a string
    on it and do not panic. *)
Theorem helper_values_encode
  (range_order : forall A : Type, list (string * A) -> list (string * A)) (h : Host) (v : Value) :
  (forall A (l : list (string * A)), range_order A l ≡ₚ l) ->
  supported h ->
  NewArray range_order h = Ok v \/ NewObject range_order h = Ok v ->
  (exists s, Encode range_order v = Ok s) /\ (exists s, Prettify range_order v = Ok s).
Proof.
  intros Hperm Hs Hv.
  assert (v = to_value h) as ->.
  { pose proof (convert_supported range_order Hperm h Hs) as Hc.
    destruct h as [n | s | l | m |]; destruct Hv as [Hv | Hv]; try discriminate;
      cbn [convert] in Hc; congruence. }
  split; [apply Encode_total | apply Prettify_total]; auto using to_value_WellKinded.
Qed.

Lemma helper_values_encode_witness :
  supported (HSlice [HInt (-1); HMap ∅]) /\
  (NewArray stored_order (HSlice [HInt (-1); HMap ∅])
   = Ok (ArrayValue [NewNumber (-1); ObjectValue ∅]) \/
   NewObject stored_order (HSlice [HInt (-1); HMap ∅])
   = Ok (ArrayValue [NewNumber (-1); ObjectValue ∅])) /\
  (exists s, Encode stored_order (ArrayValue [NewNumber (-1); ObjectValue ∅]) = Ok s) /\
  (exists s, Prettify stored_order (ArrayValue [NewNumber (-1); ObjectValue ∅]) = Ok s).
Proof.
  assert (supported (HSlice [HInt (-1); HMap ∅])) as H.
  { repeat constructor. apply map_Forall_empty. }
  assert (NewArray stored_order (HSlice [HInt (-1); HMap ∅])
          = Ok (ArrayValue [NewNumber (-1); ObjectValue ∅]) \/
          NewObject stored_order (HSlice [HInt (-1); HMap ∅])
          = Ok (ArrayValue [NewNumber (-1); ObjectValue ∅])) as Hv
    by (left; vm_compute; reflexivity).
  split; [exact H|]. split; [exact Hv|].
  exact (helper_values_encode stored_order _ _ stored_order_perm H Hv).
Defined.

(** ** What the pretty-printer writes *)

Lemma strip_trailing_comma_snoc (s : string) : strip_trailing_comma (s +:+ ",") = s.
Proof.
  induction s as [|c s IH]; [reflexivity|].
  cbn [String.append]. destruct s as [|d s]; [reflexivity|].
  cbn [String.append] in *.
  change (strip_trailing_comma (String c (String d (s +:+ ","))))
    with (String c (strip_trailing_comma (String d (s +:+ ",")))).
  now rewrite IH.
Qed.

Lemma commas_join (ps : list string) :
  ps <> [] ->
  string_concat (map (fun p => p +:+ ",") ps) = join_comma ps +:+ ",".
Proof.
  induction ps as [|p ps IH]; intros Hne; [congruence|].
  destruct ps as [|q ps].
  - cbn [map string_concat join_comma]. now rewrite string_app_nil_r.
  - cbn [map string_concat join_comma] in *.
    rewrite IH by discriminate. now rewrite !string_app_assoc.
Qed.

(** The opening bracket, the pieces each followed by a comma, the last
    comma stripped. *)
Lemma strip_pieces (open : string) (ps : list string) :
  strip_trailing_comma open = open ->
  strip_trailing_comma (open +:+ string_concat (map (fun p => p +:+ ",") ps))
  = open +:+ join_comma ps.
Proof.
  intros Hopen. destruct ps as [|p ps].
  - cbn [map string_concat join_comma]. now rewrite string_app_nil_r.
  - rewrite commas_join by discriminate.
    now rewrite <- string_app_assoc, strip_trailing_comma_snoc.
Qed.

(** X13: [Prettify] writes an array as its elements between brackets and
    an object as its entries (in iteration order) between braces, with a
    comma between neighbours and none after the last; an empty array is
    ["[]"] and an empty object ["{}"]. *)
Theorem Prettify_shape
  (range_order : forall A : Type, list (string * A) -> list (string * A)) :
  (forall (a : list Value) (ps : list string),
      Forall2 (fun v p => Prettify range_order v = Ok p) a ps ->
      Prettify range_order (ArrayValue a) = Ok ("[" +:+ join_comma ps +:+ "]")) /\
  (forall (o : gmap string Value) (ps : list string),
      Forall2 (fun (kv : string * res string) p => snd kv = Ok (p : string))
              (range_map range_order (Prettify range_order <$> o)) ps ->
      Prettify range_order (ObjectValue o)
      = Ok ("{" +:+ join_comma
                      (zip_with pretty_entry
                         (range_map range_order (Prettify range_order <$> o)).*1 ps)
            +:+ "}")).
Proof.
  split.
  - intros a ps H.
    cbn [Prettify ArrayValue Z.eqb Kind_String Kind_Number Kind_Array Pos.eqb].
    assert (forall acc,
      for_range (fun prettify ai =>
                   res_bind (Prettify range_order ai) (fun s => Ok (prettify +:+ s +:+ ",")))
                a acc
      = Ok (acc +:+ string_concat (map (fun p => p +:+ ",") ps))) as Hloop.
    { induction H as [|v p a ps Hv _ IH]; intros acc; cbn [for_range map string_concat].
      - now rewrite string_app_nil_r.
      - rewrite Hv. cbn [res_bind]. rewrite IH. now rewrite !string_app_assoc. }
    rewrite Hloop. cbn [res_bind]. now rewrite strip_pieces, string_app_assoc.
  - intros o ps H.
    cbn [Prettify ObjectValue Z.eqb Kind_String Kind_Number Kind_Array Kind_Object Pos.eqb].
    assert (forall acc,
      for_range (fun prettify (kv : string * res string) =>
                   res_bind (snd kv) (fun s =>
                     Ok (prettify +:+ dquote +:+ fst kv +:+ dquote +:+ ": " +:+ s +:+ ",")))
                (range_map range_order (Prettify range_order <$> o)) acc
      = Ok (acc +:+ string_concat
                      (map (fun p => p +:+ ",")
                           (zip_with pretty_entry
                              (range_map range_order (Prettify range_order <$> o)).*1 ps))))
      as Hloop.
    { induction H as [|[k r] p l ps Hr _ IH]; intros acc;
        cbn [for_range map string_concat zip_with fmap list_fmap fst snd] in *.
      - now rewrite string_app_nil_r.
      - rewrite Hr. cbn [res_bind]. rewrite IH. unfold pretty_entry.
        now rewrite !string_app_assoc. }
    rewrite Hloop. cbn [res_bind]. now rewrite strip_pieces, string_app_assoc.
Qed.

Lemma Prettify_shape_witness :
  Forall2 (fun v p => Prettify stored_order v = Ok p)
          [NewNumber (-7); ArrayValue []; NewString "a,"] ["-7"; "[]"; dquote +:+ "a," +:+ dquote] /\
  Prettify stored_order (ArrayValue [NewNumber (-7); ArrayValue []; NewString "a,"])
  = Ok ("[" +:+ join_comma ["-7"; "[]"; dquote +:+ "a," +:+ dquote] +:+ "]").
Proof.
  assert (Forall2 (fun v p => Prettify stored_order v = Ok p)
            [NewNumber (-7); ArrayValue []; NewString "a,"]
            ["-7"; "[]"; dquote +:+ "a," +:+ dquote]) as H
    by (repeat constructor).
  split; [exact H|].
  exact (proj1 (Prettify_shape stored_order) _ _ H).
Defined.

(** ** What the decoder consumes *)

(** X14: when [Decode] accepts an input, the input begins with a
    complete value (a text that the parser accepts and consumes whole)
    for the value returned; the bytes after it were not looked at. *)
Theorem Decode_consumes_complete_value (s : string) (v : Value) :
  Decode s = Ok v ->
  exists p t, s = p +:+ t /\ p <> "" /\ complete_value p v /\
              forall t', Decode (p +:+ t') = Ok v.
Proof.
  intros H. apply Decode_Ok_inv in H as [ctx' H].
  destruct (ParseValue_local _ _ _ _ H) as (p & Hs & Hp & Hloc).
  exists p, (b ctx'). repeat split; [assumption | now apply starts_not_e_nonempty | |].
  - unfold complete_value. specialize (Hloc ""). rewrite string_app_nil_r in Hloc.
    rewrite <- Hloc. destruct (Nat.le_ge_cases (String.length p) (String.length s)).
    + symmetry. apply ParseValue_fuel_mono; [lia|]. apply ParseValue_fuel_enough. lia.
    + apply ParseValue_fuel_mono; [lia|]. rewrite Hloc. exact I.
  - intros t'. apply (Decode_Ok (S (String.length s)) _ v (mkContext t')). apply Hloc.
Qed.

Lemma Decode_consumes_complete_value_witness :
  Decode "li1eei2e" = Ok (ArrayValue [NewNumber 1]) /\
  exists p t, "li1eei2e" = p +:+ t /\ p <> "" /\ complete_value p (ArrayValue [NewNumber 1]) /\
              forall t', Decode (p +:+ t') = Ok (ArrayValue [NewNumber 1]).
Proof.
  assert (Decode "li1eei2e" = Ok (ArrayValue [NewNumber 1])) as H by (vm_compute; reflexivity).
  split; [exact H|]. exact (Decode_consumes_complete_value _ _ H).
Defined.

(** ** Bytes after a value *)

(** X15: bytes after an encoded value are ignored: for every plain value
    [v], every iteration order and every [t], [Decode] returns [v] on the
    text that [Encode] writes for [v] followed by [t]. *)
Theorem encoded_value_trailing_bytes
  (range_order : forall A : Type, list (string * A) -> list (string * A))
  (v : Value) (t : string) :
  (forall A (l : list (string * A)), range_order A l ≡ₚ l) ->
  plain v ->
  exists c, Encode range_order v = Ok c /\ Decode (c +:+ t) = Ok v.
Proof.
  intros Hperm Hv.
  destruct (plain_written_and_read range_order Hperm v Hv) as (c & fuel & Hc & Hp).
  exists c. split; [assumption|]. now apply (parses_as_Decode fuel).
Qed.

Lemma encoded_value_trailing_bytes_witness :
  plain (ArrayValue [NewNumber 1; NewString "spam"]) /\
  exists c, Encode stored_order (ArrayValue [NewNumber 1; NewString "spam"]) = Ok c /\
            Decode (c +:+ "i2e trailing") = Ok (ArrayValue [NewNumber 1; NewString "spam"]).
Proof.
  assert (plain (ArrayValue [NewNumber 1; NewString "spam"])) as H.
  { apply plain_array; [discriminate|]. repeat constructor; vm_compute; discriminate. }
  split; [exact H|].
  exact (encoded_value_trailing_bytes stored_order _ "i2e trailing" stored_order_perm H).
Defined.

(** ** The decoder accepts the grammar *)

Lemma digit_run_ParseInt (ds : string) (n : Z) :
  digit_run ds n -> all_digits ds = true /\ ParseInt ds = inr n.
Proof.
  intros (Hne & Hall & Hval & Hmax). split; [assumption|].
  rewrite ParseInt_digits; [now rewrite Hval | assumption | assumption | lia].
Qed.

Lemma parses_as_bytes (fuel : nat) (ds str : string) :
  digit_run ds (len str) -> parses_as (S fuel) (ds +:+ ":" +:+ str) (NewString str).
Proof.
  intros Hrun t. destruct (digit_run_ParseInt _ _ Hrun) as [Hall Hp].
  destruct Hrun as (Hne & _). rewrite !string_app_assoc.
  destruct ds as [|x ds]; [congruence|].
  cbn [String.append]. rewrite ParseValue_cons. unfold dispatch.
  pose proof Hall as Hx. simpl in Hx. apply andb_true_iff in Hx as [-> _].
  apply (ParseString_intro (String x ds) str t); assumption.
Qed.

Lemma parses_as_integer (fuel : nat) (ds : string) (n : Z) :
  digit_run ds n -> parses_as (S fuel) ("i" +:+ ds +:+ "e") (NewNumber n).
Proof.
  intros Hrun t. destruct (digit_run_ParseInt _ _ Hrun) as [Hall Hp].
  cbn [String.append]. rewrite ParseValue_cons.
  change (dispatch fuel "i") with ParseNumber.
  rewrite string_app_assoc. now apply (ParseNumber_intro ds t n).
Qed.

(** With enough fuel, every text of the grammar parses as its value, and
    each loop reads a sequence of elements (resp. entries) up to the
    closing ['e']. *)
Lemma bencoded_parses :
  (forall c v, bencoded c v ->
     exists F, forall fuel, (F <= fuel)%nat -> parses_as fuel c v) /\
  (forall cs before after, bencoded_elements cs before after ->
     (cs = "" /\ after = before) \/
     exists F, forall fuel n t, (F <= fuel)%nat -> (F <= n)%nat ->
       ParseArray_loop (ParseValue fuel) n before (mkContext (cs +:+ "e" +:+ t))
       = Ok (ArrayValue after, mkContext t)) /\
  (forall cs before after, bencoded_entries cs before after ->
     (cs = "" /\ after = before) \/
     exists F, forall fuel n t, (F <= fuel)%nat -> (F <= n)%nat ->
       ParseObject_loop (ParseValue fuel) n before (mkContext (cs +:+ "e" +:+ t))
       = Ok (ObjectValue after, mkContext t)).
Proof.
  apply bencoded_mutind.
  - intros ds str Hrun. exists 1%nat. intros [|fuel] Hf; [lia|]. now apply parses_as_bytes.
  - intros ds n Hrun. exists 1%nat. intros [|fuel] Hf; [lia|]. now apply parses_as_integer.
  - intros cs a _ [[_ ->] | [F HF]] Hne; [congruence|].
    exists (S F). intros [|fuel] Hf t; [lia|].
    cbn [String.append]. rewrite ParseValue_cons.
    change (dispatch fuel "l") with (ParseArray (ParseValue fuel) fuel).
    unfold ParseArray. unfold_M. cbn [fst snd].
    rewrite string_app_assoc. apply HF; lia.
  - intros cs o _ [[_ ->] | [F HF]] Hne; [congruence|].
    exists (S F). intros [|fuel] Hf t; [lia|].
    cbn [String.append]. rewrite ParseValue_cons.
    change (dispatch fuel "d") with (ParseObject (ParseValue fuel) fuel).
    unfold ParseObject. unfold_M. cbn [fst snd].
    rewrite string_app_assoc. apply HF; lia.
  - intros a. now left.
  - intros c cs v before after _ [Fv Hv] _ IH. right.
    assert (exists Fe, forall fuel n t, (Fe <= fuel)%nat -> (Fe <= n)%nat ->
              (r' <- attempt (RemoveACharacter "e") ;;
               match r' with
               | Some _ => ret (mkValue Kind_Array "" 0 (before ++ [v]) ∅)
               | None => ParseArray_loop (ParseValue fuel) n (before ++ [v])
               end) (mkContext (cs +:+ "e" +:+ t))
              = Ok (ArrayValue after, mkContext t)) as [Fe He].
    { destruct IH as [[-> ->] | [Fe He]].
      - exists O. intros fuel n t _ _. cbn [String.append]. now rewrite attempt_e_cons.
      - exists Fe. intros fuel n t Hf Hn. specialize (He fuel n t Hf Hn).
        destruct (ParseArray_loop_local _ (ParseValue_local fuel) _ _ _ _ _ He)
          as (c' & Heq & Hc' & _). cbn [b] in Heq.
        rewrite attempt_e_not_e; [exact He|]. rewrite Heq. now apply starts_not_e_app. }
    exists (S (Fv + Fe)). intros fuel [|n] t Hf Hn; [lia|].
    rewrite ParseArray_loop_step, string_app_assoc, (Hv fuel ltac:(lia)).
    cbn [res_bind fst snd]. apply He; lia.
  - intros o. now left.
  - intros ds key c cs v before after Hrun _ [Fv Hv] _ IH. right.
    destruct (digit_run_ParseInt _ _ Hrun) as [Hall Hp].
    assert (exists Fe, forall fuel n t, (Fe <= fuel)%nat -> (Fe <= n)%nat ->
              (r' <- attempt (RemoveACharacter "e") ;;
               match r' with
               | Some _ => ret (mkValue Kind_Object "" 0 [] (<[key := v]> before))
               | None => ParseObject_loop (ParseValue fuel) n (<[key := v]> before)
               end) (mkContext (cs +:+ "e" +:+ t))
              = Ok (ObjectValue after, mkContext t)) as [Fe He].
    { destruct IH as [[-> ->] | [Fe He]].
      - exists O. intros fuel n t _ _. cbn [String.append]. now rewrite attempt_e_cons.
      - exists Fe. intros fuel n t Hf Hn. specialize (He fuel n t Hf Hn).
        destruct (ParseObject_loop_local _ (ParseValue_local fuel) _ _ _ _ _ He)
          as (c' & Heq & Hc' & _). cbn [b] in Heq.
        rewrite attempt_e_not_e; [exact He|]. rewrite Heq. now apply starts_not_e_app. }
    exists (S (Fv + Fe)). intros fuel [|n] t Hf Hn; [lia|].
    rewrite ParseObject_loop_step, !string_app_assoc.
    rewrite (GetString_intro ds key _ Hall Hp). cbn [res_bind fst snd].
    rewrite (Hv fuel ltac:(lia)). cbn [res_bind fst snd]. apply He; lia.
Qed.

(** X16: the decoder accepts the grammar: on every input that begins
    with a text of the grammar (digit runs up to [maxInt64], lists and
    dictionaries with at least one element) [Decode] returns the value
    the text stands for, and ignores the bytes after it. *)
Theorem Decode_accepts_grammar (c t : string) (v : Value) :
  bencoded c v -> Decode (c +:+ t) = Ok v.
Proof.
  intros H. destruct (proj1 bencoded_parses c v H) as [F HF].
  exact (parses_as_Decode F c t v (HF F (Nat.le_refl F))).
Qed.

Lemma Decode_accepts_grammar_witness :
  bencoded ("l" +:+ ("i7e" +:+ ("04" +:+ ":" +:+ "spam") +:+ "") +:+ "e")
           (ArrayValue [NewNumber 7; NewString "spam"]) /\
  Decode ("li7e04:spame" +:+ "JUNK") = Ok (ArrayValue [NewNumber 7; NewString "spam"]).
Proof.
  assert (bencoded ("l" +:+ ("i7e" +:+ ("04" +:+ ":" +:+ "spam") +:+ "") +:+ "e")
            (ArrayValue [NewNumber 7; NewString "spam"])) as H.
  { apply bencoded_list; [|discriminate].
    apply (bencoded_elements_cons "i7e" _ (NewNumber 7) [] _).
    { apply (bencoded_integer "7" 7). repeat split; vm_compute; discriminate. }
    apply (bencoded_elements_cons ("04" +:+ ":" +:+ "spam") "" (NewString "spam") [NewNumber 7] _).
    { apply (bencoded_bytes "04" "spam"). repeat split; vm_compute; discriminate. }
    apply bencoded_elements_nil. }
  split; [exact H|].
  exact (Decode_accepts_grammar _ "JUNK" _ H).
Defined.
